(** * FaceMesh Landmark Selector: symmetry mapping, view transform,
      brush selection, hover probe and JSON import/export

    A shallow embedding of the TypeScript sources

      - [utils/geometry]          ([calculateSymmetryMap] and its vector helpers),
      - [components/CanvasArea]   ([screenToWorld], [performSelection], the hover
                                   check of [handlePointerMove], [handleWheel]),
      - [App]                     ([handleSelectionChange], [handleExport],
                                   [handleImportJSON], [generateId], [getRandomColor]).

    Numbers.  A JavaScript [number] is an IEEE-754 double.
    [calculateSymmetryMap] is embedded on doubles (the primitive binary64
    floats, module [Float64]): what it returns depends on overflow and on
    NaN, because a squared distance that is [Infinity] or [NaN] does not
    compare below the initial [Infinity].  The canvas (view transform,
    brush, hover probe, zoom) reads coordinates, scales and distances as
    real numbers ([R]); rounding is outside that part of the model.  The
    vector helpers are given over [R] as well (module [Geometry]), for what
    they compute when no operation rounds.  Numbers that are used as array
    indices or set members are integers ([nat] for loop counters, [Z] for
    stored values, since the source stores the sentinel [-1]).

    Exceptions.  Reading a property of [undefined] raises a [TypeError] in
    JavaScript; a function that can do so returns an [option], [None] being
    the raised exception. *)

From Stdlib Require Floats.
From Stdlib Require Import Reals Lra Psatz ZArith NArith Ascii String.
From stdpp Require Import gmap strings list sorting pretty.

Set Warnings "-clear-no-such-hyp".

#[global] Instance Rlt_decision (x y : R) : Decision (x < y)%R := Rlt_dec x y.
#[global] Instance Req_decision : EqDecision R := Req_dec_T.

(** ** utils/geometry over the real numbers

    The landmark as the canvas reads it, and the vector helpers of
    [calculateSymmetryMap] with every operation exact. *)

Module Geometry.
Local Open Scope R_scope.

(** [interface Point3D { x; y; z }]; a [NormalizedLandmark] is read through
    these three fields only. *)
Record Point3D : Type := mkPoint { px : R; py : R; pz : R }.

Definition sub (a b : Point3D) : Point3D :=
  {| px := px a - px b; py := py a - py b; pz := pz a - pz b |}.

Definition cross (a b : Point3D) : Point3D :=
  {| px := py a * pz b - pz a * py b;
     py := pz a * px b - px a * pz b;
     pz := px a * py b - py a * px b |}.

Definition dot (a b : Point3D) : R :=
  px a * px b + py a * py b + pz a * pz b.

Definition normalize (a : Point3D) : Point3D :=
  let len := sqrt (px a * px a + py a * py a + pz a * pz a) in
  if decide (len = 0) then {| px := 0; py := 0; pz := 0 |}
  else {| px := px a / len; py := py a / len; pz := pz a / len |}.

Definition scaleVec (a : Point3D) (s : R) : Point3D :=
  {| px := px a * s; py := py a * s; pz := pz a * s |}.

(** [P_reflected = P - 2 * dot(P - P0, n) * n] *)
Definition reflect (planePoint planeNormal p : Point3D) : Point3D :=
  let v := sub p planePoint in
  let dist := dot v planeNormal in
  sub p (scaleVec planeNormal (2 * dist)).


End Geometry.

(** ** utils/geometry on doubles *)

Module Float64.
Import PrimFloat.
Local Open Scope float_scope.

(** [interface Point3D { x: number; y: number; z: number }] *)
Record Point3D : Type := mkPoint { x : float; y : float; z : float }.

Definition sub (a b : Point3D) : Point3D :=
  {| x := x a - x b; y := y a - y b; z := z a - z b |}.

Definition cross (a b : Point3D) : Point3D :=
  {| x := y a * z b - z a * y b;
     y := z a * x b - x a * z b;
     z := x a * y b - y a * x b |}.

Definition dot (a b : Point3D) : float :=
  x a * x b + y a * y b + z a * z b.

(** [len === 0] is the equality of doubles: it holds of both zeros and
    fails when [len] is [NaN]. *)
Definition normalize (a : Point3D) : Point3D :=
  let len := sqrt (x a * x a + y a * y a + z a * z a) in
  if len =? 0 then {| x := 0; y := 0; z := 0 |}
  else {| x := x a / len; y := y a / len; z := z a / len |}.

Definition scaleVec (a : Point3D) (s : float) : Point3D :=
  {| x := x a * s; y := y a * s; z := z a * s |}.

(** [v ** 2]: the product [v * v], which is what the exponent 2 gives. *)
Definition pow2 (v : float) : float := v * v.

(** [(q.x - reflection.x) ** 2 + (q.y - reflection.y) ** 2 + (q.z - reflection.z) ** 2] *)
Definition distSq (q reflection : Point3D) : float :=
  pow2 (x q - x reflection) + pow2 (y q - y reflection) + pow2 (z q - z reflection).

(** The inner loop [for (let j = 0; j < landmarks.length; j++)], entered at
    index [j] with [qs] the landmarks still to visit.  [d < bestDist] is the
    comparison of doubles: it fails when [d] is [NaN] and when both sides
    are [Infinity]. *)
Fixpoint nearest_from (reflection : Point3D) (j : nat) (qs : list Point3D)
    (bestDist : float) (bestIdx : Z) : float * Z :=
  match qs with
  | [] => (bestDist, bestIdx)
  | q :: qs' =>
      let d := distSq q reflection in
      if d <? bestDist
      then nearest_from reflection (S j) qs' d (Z.of_nat j)
      else nearest_from reflection (S j) qs' bestDist bestIdx
  end.

(** [let bestDist = Infinity; let bestIdx = -1; for (j ...) {...}] *)
Definition nearest (landmarks : list Point3D) (reflection : Point3D) : Z :=
  (nearest_from reflection 0 landmarks infinity (-1)%Z).2.

(** [v = sub(p, planePoint); dist = dot(v, planeNormal);
     reflection = sub(p, scaleVec(planeNormal, 2 * dist))] *)
Definition reflect (planePoint planeNormal p : Point3D) : Point3D :=
  let v := sub p planePoint in
  let dist := dot v planeNormal in
  sub p (scaleVec planeNormal (2 * dist)).

(** The outer loop [for (let i = 0; i < landmarks.length; i++)], entered at
    index [i] with [ps] the landmarks still to visit; [map[i] = bestIdx]. *)
Fixpoint fill_map (landmarks : list Point3D) (planePoint planeNormal : Point3D)
    (i : nat) (ps : list Point3D) (map : gmap nat Z) : gmap nat Z :=
  match ps with
  | [] => map
  | p :: ps' =>
      let reflection := reflect planePoint planeNormal p in
      let bestIdx := nearest landmarks reflection in
      fill_map landmarks planePoint planeNormal (S i) ps' (<[i := bestIdx]> map)
  end.

(** [calculateSymmetryMap].  [landmarks[k]] is [undefined] past the end of the
    array; the guard [!p10 || !p152 || !p168] returns the empty map, while
    [sub(p1, p152)] on an [undefined] [p1] would raise ([None]). *)
Definition calculateSymmetryMap (landmarks : list Point3D) : option (gmap nat Z) :=
  match landmarks !! 10%nat, landmarks !! 152%nat, landmarks !! 168%nat with
  | Some p10, Some p152, Some p168 =>
      let planePoint :=
        {| x := (x p10 + x p152 + x p168) / 3;
           y := (y p10 + y p152 + y p168) / 3;
           z := (z p10 + z p152 + z p168) / 3 |} in
      match landmarks !! 1%nat with
      | None => None
      | Some p1 =>
          let vY := sub p10 p152 in
          let vZ := sub p1 p152 in
          let planeNormal := normalize (cross vY vZ) in
          Some (fill_map landmarks planePoint planeNormal 0 landmarks ∅)
      end
  | _, _, _ => Some ∅
  end.

(** The real number a finite double stands for; the canvas is only given
    finite coordinates (an infinite or [NaN] one is read as 0 here). *)
Definition to_R (v : float) : R :=
  match FloatOps.Prim2SF v with
  | SpecFloat.S754_finite s m e =>
      ((if s then - IZR (Zpos m) else IZR (Zpos m)) * powerRZ 2 e)%R
  | _ => 0%R
  end.

(** The landmark as the canvas reads it. *)
Definition real_point (p : Point3D) : Geometry.Point3D :=
  Geometry.mkPoint (to_R (x p)) (to_R (y p)) (to_R (z p)).

(** Neither infinite nor [NaN]. *)
Definition finite (v : float) : bool := abs v <? infinity.

Definition finite_point (p : Point3D) : bool :=
  finite (x p) && finite (y p) && finite (z p).

End Float64.

(** ** components/CanvasArea *)

Module Canvas.
Import Geometry.
Local Open Scope R_scope.

Record Point2D : Type := mkPoint2D { x2 : R; y2 : R }.

(** [const [scale, setScale] = useState(1); const [pan, setPan] = useState({x: 0, y: 0})] *)
Record ViewState : Type := mkView { scale : R; pan : Point2D }.

(** The two fields of the loaded [HTMLImageElement] the canvas reads. *)
Record Image : Type := mkImage { naturalWidth : R; naturalHeight : R }.

(** [mode: 'add' | 'subtract'] *)
Inductive Mode : Type := Add | Subtract.

#[global] Instance Mode_eq_dec : EqDecision Mode.
Proof. solve_decision. Defined.

Definition screenToWorld (v : ViewState) (sx sy : R) : Point2D :=
  {| x2 := (sx - x2 (pan v)) / scale v; y2 := (sy - y2 (pan v)) / scale v |}.

(** The transform [draw] installs before drawing the image and the landmarks,
    [ctx.translate(pan.x, pan.y); ctx.scale(scale, scale)]: where a world
    point appears on the screen. *)
Definition worldToScreen (v : ViewState) (w : Point2D) : Point2D :=
  {| x2 := x2 (pan v) + scale v * x2 w; y2 := y2 (pan v) + scale v * y2 w |}.

(** World position of a landmark: [l.x * naturalWidth, l.y * naturalHeight]. *)
Definition landmark_world (img : Image) (l : Point3D) : Point2D :=
  {| x2 := px l * naturalWidth img; y2 := py l * naturalHeight img |}.

(** [(lx - worldPos.x) ** 2 + (ly - worldPos.y) ** 2] *)
Definition distSq2 (img : Image) (l : Point3D) (worldPos : Point2D) : R :=
  (x2 (landmark_world img l) - x2 worldPos) ^ 2
  + (y2 (landmark_world img l) - y2 worldPos) ^ 2.

(** The [landmarks.forEach((l, i) => ...)] of [performSelection], entered at
    index [i]; the result is what the loop pushes onto [indicesToUpdate]. *)
Fixpoint brush_scan (img : Image) (worldPos : Point2D) (worldRadiusSq : R)
    (i : nat) (ls : list Point3D) : list Z :=
  match ls with
  | [] => []
  | l :: ls' =>
      let distSq := distSq2 img l worldPos in
      if bool_decide (distSq < worldRadiusSq)
      then Z.of_nat i :: brush_scan img worldPos worldRadiusSq (S i) ls'
      else brush_scan img worldPos worldRadiusSq (S i) ls'
  end.

(** [indicesToUpdate] as [performSelection] computes it. *)
Definition indicesToUpdate (img : Image) (landmarks : list Point3D)
    (brushSize : R) (v : ViewState) (screenX screenY : R) : list Z :=
  let worldPos := screenToWorld v screenX screenY in
  let worldRadiusSq := (brushSize / scale v) ^ 2 in
  brush_scan img worldPos worldRadiusSq 0 landmarks.

(** [performSelection]: the call of [onSelectionChange] it makes, if any. *)
Definition performSelection (landmarks : option (list Point3D)) (imgElement : option Image)
    (brushSize : R) (mode : Mode) (v : ViewState) (screenX screenY : R)
    : option (list Z * Mode) :=
  match landmarks, imgElement with
  | Some lms, Some img =>
      let idxs := indicesToUpdate img lms brushSize v screenX screenY in
      if bool_decide (0 < length idxs)%nat then Some (idxs, mode) else None
  | _, _ => None
  end.

(** The [landmarks.forEach] of the hover check, entered at index [i] with the
    current value of [foundHover]. *)
Fixpoint hover_scan (img : Image) (worldPos : Point2D) (hoverThresh : R)
    (i : nat) (ls : list Point3D) (foundHover : Z) : Z :=
  match ls with
  | [] => foundHover
  | l :: ls' =>
      let dist := sqrt (distSq2 img l worldPos) in
      hover_scan img worldPos hoverThresh (S i) ls'
        (if bool_decide (dist < hoverThresh) then Z.of_nat i else foundHover)
  end.

(** The hover check of [handlePointerMove]: the value passed to
    [setHoveredIndex] ([None] is [null]). *)
Definition hoverProbe (img : Image) (landmarks : list Point3D) (v : ViewState)
    (x y : R) : option Z :=
  let worldPos := screenToWorld v x y in
  let hoverThresh := 5 / scale v in
  let foundHover := hover_scan img worldPos hoverThresh 0 landmarks (-1)%Z in
  if decide (foundHover ≠ (-1)%Z) then Some foundHover else None.

(** [if (imgElement && landmarks) { ... setHoveredIndex(...) }]: the hovered
    index after a pointer move that neither pans nor returns early. *)
Definition hoverCheck (hoveredIndex : option Z) (landmarks : option (list Point3D))
    (imgElement : option Image) (v : ViewState) (x y : R) : option Z :=
  match imgElement, landmarks with
  | Some img, Some lms => hoverProbe img lms v x y
  | _, _ => hoveredIndex
  end.

Definition zoomSensitivity : R := 0.001.

(** [handleWheel]: [mouseX], [mouseY] are the pointer position relative to
    the canvas, [deltaY] the wheel delta. *)
Definition handleWheel (v : ViewState) (mouseX mouseY deltaY : R) : ViewState :=
  let delta := - deltaY * zoomSensitivity in
  let zoomFactor := exp delta in
  let newScale := Rmax 0.1 (Rmin 20 (scale v * zoomFactor)) in
  let newPanX := mouseX - (mouseX - x2 (pan v)) * (newScale / scale v) in
  let newPanY := mouseY - (mouseY - y2 (pan v)) * (newScale / scale v) in
  {| scale := newScale; pan := {| x2 := newPanX; y2 := newPanY |} |}.

End Canvas.

(** ** JavaScript objects used as string-keyed records, and JSON values *)

Module JS.
Local Open Scope N_scope.

(** The own enumerable properties of an ordinary object, in the order
    [Object.entries], [forEach] and [JSON.stringify] visit them: array-index
    keys first, in ascending numeric order, then the other string keys in the
    order they were created. *)
Definition jsobj (A : Type) : Type := list (string * A).

Definition digit_of (a : ascii) : option N :=
  let n := N_of_ascii a in
  if (48 <=? n) && (n <=? 57) then Some (n - 48) else None.

Fixpoint parse_digits (s : string) (acc : N) : option N :=
  match s with
  | EmptyString => Some acc
  | String a s' =>
      match digit_of a with
      | Some d => parse_digits s' (10 * acc + d)
      | None => None
      end
  end.

(** A property key is an array index when it is the canonical decimal form
    of an integer in [0, 2^32 - 2], that is, when printing the number it
    denotes gives the key back. *)
Definition array_index (k : string) : option N :=
  match parse_digits k 0 with
  | Some n =>
      if decide (pretty n = k) then
        if n <? 2 ^ 32 - 1 then Some n else None
      else None
  | None => None
  end.

Definition has_key {A} (k : string) (o : jsobj A) : bool :=
  bool_decide (k ∈ o.*1).

(** Overwriting an existing own property keeps its position. *)
Fixpoint replace_value {A} (k : string) (v : A) (o : jsobj A) : jsobj A :=
  match o with
  | [] => []
  | (k', v') :: o' =>
      if decide (k = k') then (k', v) :: o' else (k', v') :: replace_value k v o'
  end.

(** A new array-index key goes before the first key that is a greater array
    index or no array index at all. *)
Fixpoint insert_index {A} (n : N) (k : string) (v : A) (o : jsobj A) : jsobj A :=
  match o with
  | [] => [(k, v)]
  | (k', v') :: o' =>
      match array_index k' with
      | Some n' =>
          if n' <? n then (k', v') :: insert_index n k v o' else (k, v) :: o
      | None => (k, v) :: o
      end
  end.

(** [CreateDataProperty]: define or overwrite the own property [k]. *)
Definition obj_define {A} (k : string) (v : A) (o : jsobj A) : jsobj A :=
  if has_key k o then replace_value k v o
  else match array_index k with
       | Some n => insert_index n k v o
       | None => o ++ [(k, v)]
       end.

(** [o[k] = v] on an object created by the literal [{}], for [v] an object
    (here always an array).  Every key defines an own property except
    [__proto__], which reaches the accessor inherited from
    [Object.prototype]: the assignment changes the prototype and creates no
    own property. *)
Definition obj_assign {A} (k : string) (v : A) (o : jsobj A) : jsobj A :=
  if decide (k = "__proto__"%string) then o else obj_define k v o.

(** A parsed JSON value.  The members of an object are its own properties in
    [Object.entries] order.  Array elements are taken to be integers, as the
    cast [indices as number[]] of [handleImportJSON] assumes; the value of a
    number outside an array plays no role. *)
#[warnings="-register-all"]
Inductive json : Type :=
  | JNull
  | JBool (b : bool)
  | JNum (z : Z)
  | JStr (s : string)
  | JArr (elems : list Z)
  | JObj (members : jsobj json).

(** [JSON.stringify] of an object whose values are integer arrays, abstracted
    to the sequence of members the text lists (own properties, in order). *)
Definition JSON_stringify (o : jsobj (list Z)) : list (string * list Z) := o.

(** [JSON.parse] of such a text: the members are defined one after the other
    with [CreateDataProperty] (also [__proto__]; a repeated key overwrites). *)
Definition JSON_parse (text : list (string * list Z)) : json :=
  JObj (foldl (λ o m, obj_define m.1 (JArr m.2) o) [] text).

End JS.

(** ** App *)

Module App.
Import Canvas JS.

(** [interface SelectionGroup { id; name; indices: Set<number>; visible; color }].
    A [Set<number>] is read here through [has], [forEach] into another set,
    and [Array.from(...).sort(...)] only, so its insertion order is not
    observable and a finite set of integers models it. *)
Record SelectionGroup : Type := mkGroup {
  id : string;
  name : string;
  indices : gset Z;
  visible : bool;
  color : string
}.

(** The two pieces of [App] state the operations below read and write. *)
Record AppState : Type := mkApp {
  groups : list SelectionGroup;
  activeGroupId : string
}.

Definition set_indices (g : SelectionGroup) (s : gset Z) : SelectionGroup :=
  {| id := id g; name := name g; indices := s; visible := visible g; color := color g |}.

(** One step of [indices.forEach(idx => ...)] on [(nextIndices, changed)]. *)
Definition apply_index (currentMode : Mode) (acc : gset Z * bool) (idx : Z)
    : gset Z * bool :=
  let '(nextIndices, changed) := acc in
  match currentMode with
  | Add =>
      if decide (idx ∉ nextIndices) then ({[idx]} ∪ nextIndices, true) else acc
  | Subtract =>
      if decide (idx ∈ nextIndices) then (nextIndices ∖ {[idx]}, true) else acc
  end.

(** The body of the [prevGroups.map] callback for the active group. *)
Definition update_group (idxs : list Z) (currentMode : Mode) (g : SelectionGroup)
    : SelectionGroup :=
  let '(nextIndices, changed) := foldl (apply_index currentMode) (indices g, false) idxs in
  if changed then set_indices g nextIndices else g.

(** [handleSelectionChange], as the state update it passes to [setGroups]. *)
Definition handleSelectionChange (activeId : string) (idxs : list Z)
    (currentMode : Mode) (prevGroups : list SelectionGroup) : list SelectionGroup :=
  (λ g, if decide (id g ≠ activeId) then g else update_group idxs currentMode g)
    <$> prevGroups.

(** One brush sample: [performSelection] in the canvas and, when it calls
    [onSelectionChange], [handleSelectionChange] in the application. *)
Definition brush (landmarks : option (list Geometry.Point3D)) (imgElement : option Image)
    (brushSize : R) (mode : Mode) (v : ViewState) (screenX screenY : R)
    (st : AppState) : AppState :=
  match performSelection landmarks imgElement brushSize mode v screenX screenY with
  | Some (idxs, m) =>
      {| groups := handleSelectionChange (activeGroupId st) idxs m (groups st);
         activeGroupId := activeGroupId st |}
  | None => st
  end.

(** [Array.from(g.indices).sort((a, b) => a - b)] *)
Definition sorted_indices (s : gset Z) : list Z := merge_sort Z.le (elements s).

(** [exportData] of [handleExport]: [groups.forEach(g => exportData[g.name] = ...)]. *)
Definition exportData (gs : list SelectionGroup) : jsobj (list Z) :=
  foldl (λ o g, obj_assign (name g) (sorted_indices (indices g)) o) [] gs.

(** The content of the file [handleExport] offers for download. *)
Definition handleExport (gs : list SelectionGroup) : list (string * list Z) :=
  JSON_stringify (exportData gs).

Definition palette : list string :=
  ["#bb86fc"; "#03dac6"; "#cf6679"; "#ffb74d"; "#4dd0e1"; "#aed581"]%string.

(** [getRandomColor], given the value [r] of [Math.floor(Math.random() * colors.length)]. *)
Definition getRandomColor (r : nat) : string :=
  default ""%string (palette !! (r mod length palette)%nat).

(** The state of the [Object.entries(json).forEach] loop of
    [handleImportJSON]: [newGroups], [firstId] and the number of colours drawn. *)
Record ImportLoop : Type := mkLoop {
  newGroups : list SelectionGroup;
  firstId : string;
  draws : nat
}.

(** One iteration, on the entry [(name, value)] at position [idx].
    [genId idx] is what the call of [generateId] in this iteration returns,
    [rnd k] the palette position the [k]-th call of [getRandomColor] draws. *)
Definition import_entry (genId : nat → string) (rnd : nat → nat)
    (acc : ImportLoop) (idx : nat) (entry : string * json) : ImportLoop :=
  let new_id := genId idx in
  let first := if decide (idx = 0%nat) then new_id else firstId acc in
  match entry.2 with
  | JArr elems =>
      {| newGroups := newGroups acc ++
           [ {| id := new_id; name := entry.1; indices := list_to_set elems;
                visible := true; color := getRandomColor (rnd (draws acc)) |} ];
         firstId := first;
         draws := S (draws acc) |}
  | _ => {| newGroups := newGroups acc; firstId := first; draws := draws acc |}
  end.

Fixpoint import_entries (genId : nat → string) (rnd : nat → nat)
    (idx : nat) (entries : jsobj json) (acc : ImportLoop) : ImportLoop :=
  match entries with
  | [] => acc
  | e :: entries' =>
      import_entries genId rnd (S idx) entries' (import_entry genId rnd acc idx e)
  end.

(** [handleImportJSON] from the parsed [json] on: the next state and the
    message of the [alert], if one is shown.  [Object.entries(null)] raises,
    and the [catch] reports it. *)
Definition handleImportJSON (genId : nat → string) (rnd : nat → nat)
    (j : json) (st : AppState) : AppState * option string :=
  match j with
  | JArr elems =>
      ({| groups := (λ g, if decide (id g ≠ activeGroupId st) then g
                          else set_indices g (list_to_set elems)) <$> groups st;
          activeGroupId := activeGroupId st |}, None)
  | JObj members =>
      let loop := import_entries genId rnd 0 members
                    {| newGroups := []; firstId := ""; draws := 0 |} in
      if bool_decide (0 < length (newGroups loop))%nat
      then ({| groups := newGroups loop; activeGroupId := firstId loop |}, None)
      else (st, Some "No valid groups found in JSON."%string)
  | JNull => (st, Some "Failed to parse JSON"%string)
  | _ => (st, Some "Invalid JSON format."%string)
  end.

End App.

(** ** Specification predicates *)

Module Spec.
Import Geometry Canvas JS App.




(** [clamp(x, lo, hi)] as the specification of the zoom uses it. *)
Definition clamp (x lo hi : R) : R :=
  if decide (x < lo)%R then lo else if decide (hi < x)%R then hi else x.


(** The order in which an ordinary object lists two of its keys: an array
    index before a greater array index and before every other key. *)
Definition key_before (k1 k2 : string) : Prop :=
  match array_index k1, array_index k2 with
  | Some a, Some b => (a < b)%N
  | None, Some _ => False
  | _, None => True
  end.

(** An entry list that is the own-property list of some object: no key
    twice, and the keys in the order the object lists them. *)
Definition canonical {A} (o : jsobj A) : Prop :=
  NoDup o.*1 ∧ StronglySorted key_before o.*1.

(** What [handleExport] writes for a group: its name and its indices in
    ascending order. *)
Definition name_and_array (g : SelectionGroup) : string * list Z :=
  (name g, sorted_indices (indices g)).

(** The entry the import loop keeps: the members whose value is an array. *)
Definition array_member (m : string * json) : option (string * list Z) :=
  match m.2 with
  | JArr elems => Some (m.1, elems)
  | _ => None
  end.

End Spec.

(** ** The symmetry mapper as the specification describes it

    The steps of the specification, with the operations of the doubles in
    the order the source applies them. *)

Module SymmetrySpec.
Import PrimFloat Float64.

(** Step 2: the plane point is the arithmetic mean of the three midline
    points. *)
Definition plane_point (p10 p152 p168 : Point3D) : Point3D :=
  mkPoint ((x p10 + x p152 + x p168) / 3)%float
          ((y p10 + y p152 + y p168) / 3)%float
          ((z p10 + z p152 + z p168) / 3)%float.

(** The Euclidean length of a vector. *)
Definition vec_length (a : Point3D) : float :=
  sqrt (x a * x a + y a * y a + z a * z a)%float.

(** The length of the vector is 0. *)
Definition zero_length (a : Point3D) : bool := (vec_length a =? 0)%float.

Definition zero_vector : Point3D := mkPoint 0 0 0.

(** [normalize]: the zero vector for a vector of length 0, the vector
    divided by its length otherwise. *)
Definition unit_vector (a : Point3D) : Point3D :=
  if zero_length a then zero_vector
  else mkPoint (x a / vec_length a)%float (y a / vec_length a)%float
               (z a / vec_length a)%float.

(** Step 3: [vUp = forehead - chin], [vDepth = noseTip - chin], and their
    cross product. *)
Definition midline_cross (p10 p152 p1 : Point3D) : Point3D :=
  let ux := (x p10 - x p152)%float in
  let uy := (y p10 - y p152)%float in
  let uz := (z p10 - z p152)%float in
  let vx := (x p1 - x p152)%float in
  let vy := (y p1 - y p152)%float in
  let vz := (z p1 - z p152)%float in
  mkPoint (uy * vz - uz * vy)%float (uz * vx - ux * vz)%float
          (ux * vy - uy * vx)%float.

(** Step 4: [n = normalize(cross(vUp, vDepth))]. *)
Definition unit_normal (p10 p152 p1 : Point3D) : Point3D :=
  unit_vector (midline_cross p10 p152 p1).

(** Step 5: the signed distance [d = dot(p - P0, n)] and the reflected
    point [r = p - 2*d*n]. *)
Definition reflected (P0 n p : Point3D) : Point3D :=
  let d := ((x p - x P0) * x n + (y p - y P0) * y n + (z p - z P0) * z n)%float in
  mkPoint (x p - x n * (2 * d))%float
          (y p - y n * (2 * d))%float
          (z p - z n * (2 * d))%float.

(** Step 6: the squared Euclidean distance [|q - r|^2]. *)
Definition sqdist (q r : Point3D) : float :=
  ((x q - x r) * (x q - x r) + (y q - y r) * (y q - y r)
   + (z q - z r) * (z q - z r))%float.

(** No landmark is at a squared distance from [r] that compares below
    [Infinity]: each one is [Infinity] or [NaN]. *)
Definition no_candidate (landmarks : list Point3D) (r : Point3D) : Prop :=
  ∀ q, q ∈ landmarks → (sqdist q r <? infinity)%float = false.

(** [j] is the first index of [landmarks] at minimal squared distance from
    [r]: the distance of [j] is below [Infinity], no landmark is strictly
    nearer, and no landmark before [j] is as near. *)
Definition first_nearest (landmarks : list Point3D) (r : Point3D) (j : nat) : Prop :=
  ∃ q, landmarks !! j = Some q
    ∧ (sqdist q r <? infinity)%float = true
    ∧ (∀ k q', landmarks !! k = Some q' → (sqdist q' r <? sqdist q r)%float = false)
    ∧ (∀ k q', k < j → landmarks !! k = Some q' →
         (sqdist q' r <=? sqdist q r)%float = false).

(** The value stored for a point whose reflection is [r]: the first nearest
    index, or the initial [-1] when there is no candidate. *)
Definition nearest_choice (landmarks : list Point3D) (r : Point3D) (v : Z) : Prop :=
  (v = (-1)%Z ∧ no_candidate landmarks r)
  ∨ ∃ j, v = Z.of_nat j ∧ first_nearest landmarks r j.

(** What the inner loop of [calculateSymmetryMap] knows after [n] landmarks. *)
Definition best_inv (landmarks : list Point3D) (r : Point3D) (n : nat)
    (bestDist : float) (bestIdx : Z) : Prop :=
  (bestIdx = (-1)%Z ∧ bestDist = infinity
   ∧ ∀ m q, m < n → landmarks !! m = Some q → (sqdist q r <? infinity)%float = false)
  ∨ ∃ j q, bestIdx = Z.of_nat j ∧ j < n ∧ landmarks !! j = Some q
      ∧ bestDist = sqdist q r
      ∧ (bestDist <? infinity)%float = true
      ∧ (∀ m q', m < n → landmarks !! m = Some q' →
           (sqdist q' r <? bestDist)%float = false)
      ∧ (∀ m q', m < j → landmarks !! m = Some q' →
           (sqdist q' r <=? bestDist)%float = false).

End SymmetrySpec.

(** ** components/CanvasArea: pointer, wheel and image-load handlers *)

Module Pointer.
Import Geometry Canvas.
Local Open Scope R_scope.

(** The props of [CanvasArea] the handlers read. *)
Record Props : Type := mkProps {
  props_landmarks : option (list Point3D);
  props_img : option Image;
  props_brushSize : R;
  props_mode : Mode
}.

(** The component state ([useState]) and the refs ([useRef]) of [CanvasArea]. *)
Record CanvasState : Type := mkCanvas {
  view : ViewState;
  isDragging : bool;
  isPanning : bool;
  lastMousePos : Point2D;
  mousePos : Point2D;
  hoveredIndex : option Z;
  tooltipPos : Point2D
}.

(** What a handler reads of a pointer or wheel event: the client position,
    the bounding rectangle of the canvas, the button and the shift key. *)
Record PointerEvent : Type := mkEvent {
  clientX : R;
  clientY : R;
  rect_left : R;
  rect_top : R;
  button : Z;
  shiftKey : bool
}.

Definition event_x (e : PointerEvent) : R := clientX e - rect_left e.
Definition event_y (e : PointerEvent) : R := clientY e - rect_top e.

(** [useState(1)], [useState({x: 0, y: 0})], refs at [false]. *)
Definition initialCanvas : CanvasState :=
  {| view := mkView 1 (mkPoint2D 0 0);
     isDragging := false; isPanning := false;
     lastMousePos := mkPoint2D 0 0; mousePos := mkPoint2D 0 0;
     hoveredIndex := None; tooltipPos := mkPoint2D 0 0 |}.

(** [performSelection] with the props and the current view. *)
Definition select_at (pr : Props) (st : CanvasState) (x y : R) : option (list Z * Mode) :=
  performSelection (props_landmarks pr) (props_img pr) (props_brushSize pr)
    (props_mode pr) (view st) x y.

(** [handlePointerDown]: the next state and the call of [onSelectionChange], if any. *)
Definition handlePointerDown (pr : Props) (st : CanvasState) (e : PointerEvent)
    : CanvasState * option (list Z * Mode) :=
  let x := event_x e in
  let y := event_y e in
  let st1 := {| view := view st; isDragging := isDragging st; isPanning := isPanning st;
                lastMousePos := mkPoint2D x y; mousePos := mousePos st;
                hoveredIndex := hoveredIndex st; tooltipPos := tooltipPos st |} in
  if bool_decide (button e = 1%Z ∨ button e = 2%Z) || shiftKey e then
    ({| view := view st1; isDragging := isDragging st1; isPanning := true;
        lastMousePos := lastMousePos st1; mousePos := mousePos st1;
        hoveredIndex := hoveredIndex st1; tooltipPos := tooltipPos st1 |}, None)
  else if bool_decide (button e = 0%Z) then
    ({| view := view st1; isDragging := true; isPanning := isPanning st1;
        lastMousePos := lastMousePos st1; mousePos := mousePos st1;
        hoveredIndex := hoveredIndex st1; tooltipPos := tooltipPos st1 |},
     select_at pr st x y)
  else (st1, None).

(** [handlePointerMove]. *)
Definition handlePointerMove (pr : Props) (st : CanvasState) (e : PointerEvent)
    : CanvasState * option (list Z * Mode) :=
  let x := event_x e in
  let y := event_y e in
  let dx := x - x2 (lastMousePos st) in
  let dy := y - y2 (lastMousePos st) in
  if isPanning st then
    ({| view := {| scale := scale (view st);
                   pan := {| x2 := x2 (pan (view st)) + dx;
                             y2 := y2 (pan (view st)) + dy |} |};
        isDragging := isDragging st; isPanning := isPanning st;
        lastMousePos := mkPoint2D x y; mousePos := mkPoint2D x y;
        hoveredIndex := hoveredIndex st; tooltipPos := tooltipPos st |}, None)
  else
    let emitted := if isDragging st then select_at pr st x y else None in
    let hovered := hoverCheck (hoveredIndex st) (props_landmarks pr) (props_img pr)
                     (view st) x y in
    let tooltip :=
      match props_img pr, props_landmarks pr with
      | Some img, Some lms =>
          if decide (hover_scan img (screenToWorld (view st) x y) (5 / scale (view st))
                       0 lms (-1)%Z ≠ (-1)%Z)
          then mkPoint2D (clientX e) (clientY e) else tooltipPos st
      | _, _ => tooltipPos st
      end in
    ({| view := view st; isDragging := isDragging st; isPanning := isPanning st;
        lastMousePos := mkPoint2D x y; mousePos := mkPoint2D x y;
        hoveredIndex := hovered; tooltipPos := tooltip |}, emitted).

(** [handlePointerUp] *)
Definition handlePointerUp (st : CanvasState) : CanvasState :=
  {| view := view st; isDragging := false; isPanning := false;
     lastMousePos := lastMousePos st; mousePos := mousePos st;
     hoveredIndex := hoveredIndex st; tooltipPos := tooltipPos st |}.

(** The [onPointerLeave] handler. *)
Definition handlePointerLeave (st : CanvasState) : CanvasState :=
  {| view := view st; isDragging := false; isPanning := false;
     lastMousePos := lastMousePos st; mousePos := mkPoint2D 0 0;
     hoveredIndex := None; tooltipPos := tooltipPos st |}.

(** [handleWheel] on the component state. *)
Definition wheel (st : CanvasState) (e : PointerEvent) (deltaY : R) : CanvasState :=
  {| view := handleWheel (view st) (event_x e) (event_y e) deltaY;
     isDragging := isDragging st; isPanning := isPanning st;
     lastMousePos := lastMousePos st; mousePos := mousePos st;
     hoveredIndex := hoveredIndex st; tooltipPos := tooltipPos st |}.

(** [img.onload]: [setScale(1); setPan({x: 0, y: 0})]. *)
Definition imageLoaded (st : CanvasState) : CanvasState :=
  {| view := mkView 1 (mkPoint2D 0 0);
     isDragging := isDragging st; isPanning := isPanning st;
     lastMousePos := lastMousePos st; mousePos := mousePos st;
     hoveredIndex := hoveredIndex st; tooltipPos := tooltipPos st |}.

(** The events the canvas reacts to. *)
Inductive CanvasEvent : Type :=
  | PointerDown (e : PointerEvent)
  | PointerMove (e : PointerEvent)
  | PointerUp
  | PointerLeave
  | Wheel (e : PointerEvent) (deltaY : R)
  | ImageLoad.

Definition step (pr : Props) (st : CanvasState) (ev : CanvasEvent)
    : CanvasState * option (list Z * Mode) :=
  match ev with
  | PointerDown e => handlePointerDown pr st e
  | PointerMove e => handlePointerMove pr st e
  | PointerUp => (handlePointerUp st, None)
  | PointerLeave => (handlePointerLeave st, None)
  | Wheel e deltaY => (wheel st e deltaY, None)
  | ImageLoad => (imageLoaded st, None)
  end.

(** The state after a sequence of events. *)
Definition run (pr : Props) (st : CanvasState) (evs : list CanvasEvent) : CanvasState :=
  foldl (λ s ev, (step pr s ev).1) st evs.

End Pointer.

(** ** components/CanvasArea: the style table of [draw] *)

Module Render.
Import Geometry Canvas App.
Local Open Scope R_scope.

(** The values of the [pointStyles] map: [{ color, radius, stroke }]. *)
Record PointStyle : Type := mkStyle {
  style_color : string;
  style_radius : R;
  style_stroke : string
}.

(** [dotColor: 'white' | 'black'] *)
Inductive DotColor : Type := White | Black.

(** [groups.find(g => g.id === activeGroupId)] *)
Fixpoint find_group (activeId : string) (gs : list SelectionGroup) : option SelectionGroup :=
  match gs with
  | [] => None
  | g :: gs' => if decide (id g = activeId) then Some g else find_group activeId gs'
  end.

(** [groups.filter(g => g.visible && g.id !== activeGroupId)], then
    [if (activeGroup && activeGroup.visible) visibleGroups.push(activeGroup)]. *)
Definition visibleGroups (gs : list SelectionGroup) (activeId : string)
    : list SelectionGroup :=
  filter (λ g, visible g = true ∧ id g ≠ activeId) gs
  ++ match find_group activeId gs with
     | Some g => if visible g then [g] else []
     | None => []
     end.

(** The style [draw] stores for the indices of [g]. *)
Definition group_style (scale : R) (activeId : string) (g : SelectionGroup) : PointStyle :=
  {| style_color := color g;
     style_radius := 4 / scale;
     style_stroke := if decide (id g = activeId) then "#fff"
                     else "rgba(255,255,255,0.5)" |}.

(** [g.indices.forEach(idx => pointStyles.set(idx, {...}))].  The value set
    is the same for every index of the group, so the order in which the set
    is visited does not show in the result. *)
Definition set_group_styles (scale : R) (activeId : string)
    (styles : gmap Z PointStyle) (g : SelectionGroup) : gmap Z PointStyle :=
  set_fold (λ idx m, <[idx := group_style scale activeId g]> m) styles (indices g).

(** [pointStyles] after [visibleGroups.forEach(...)]. *)
Definition pointStyles (gs : list SelectionGroup) (activeId : string) (scale : R)
    : gmap Z PointStyle :=
  foldl (set_group_styles scale activeId) ∅ (visibleGroups gs activeId).

(** What [draw] passes to the canvas for one landmark: the arc and the
    fill, stroke and line width it is painted with. *)
Record Dot : Type := mkDot {
  dot_x : R;
  dot_y : R;
  dot_radius : R;
  dot_fill : string;
  dot_stroke : string;
  dot_lineWidth : R
}.

(** The body of [landmarks.forEach((landmark, index) => ...)] in [draw]. *)
Definition draw_landmark (img : Image) (scale : R) (styles : gmap Z PointStyle)
    (dotColor : DotColor) (index : nat) (landmark : Point3D) : Dot :=
  let x := px landmark * naturalWidth img in
  let y := py landmark * naturalHeight img in
  let lineWidth := 1 / scale in
  match styles !! Z.of_nat index with
  | Some style =>
      {| dot_x := x; dot_y := y; dot_radius := style_radius style;
         dot_fill := style_color style; dot_stroke := style_stroke style;
         dot_lineWidth := lineWidth |}
  | None =>
      {| dot_x := x; dot_y := y; dot_radius := 2 / scale;
         dot_fill := match dotColor with
                     | White => "rgba(255, 255, 255, 0.5)"
                     | Black => "rgba(0, 0, 0, 0.5)"
                     end;
         dot_stroke := match dotColor with
                       | White => "rgba(0,0,0,0.3)"
                       | Black => "rgba(255,255,255,0.3)"
                       end;
         dot_lineWidth := lineWidth * 0.5 |}
  end.

(** The landmarks as [draw] paints them, in order. *)
Definition draw_landmarks (img : Image) (gs : list SelectionGroup) (activeId : string)
    (scale : R) (dotColor : DotColor) (landmarks : list Point3D) : list Dot :=
  imap (draw_landmark img scale (pointStyles gs activeId scale) dotColor) landmarks.

End Render.

(** ** App: group management, selection actions and image loading *)

Module Groups.
Import Geometry Canvas JS App.

(** The state of [App] beyond the groups: the landmarks and the symmetry map. *)
Record Session : Type := mkSession {
  app : AppState;
  landmarks : option (list Point3D);
  symmetryMap : gmap nat Z
}.

(** The group every reset installs:
    [{ id: '1', name: 'Default', indices: new Set(), visible: true, color: '#bb86fc' }]. *)
Definition defaultGroup : SelectionGroup :=
  {| id := "1"; name := "Default"; indices := ∅; visible := true; color := "#bb86fc" |}.

Definition initialApp : AppState := {| groups := [defaultGroup]; activeGroupId := "1" |}.

(** [handleAddGroup], with [newId] what [generateId] returns and [r] the
    palette position [getRandomColor] draws. *)
Definition handleAddGroup (newId : string) (r : nat) (st : AppState) : AppState :=
  let newGroup :=
    {| id := newId;
       name := "Group " +:+ pretty (length (groups st) + 1);
       indices := ∅; visible := true; color := getRandomColor r |} in
  {| groups := groups st ++ [newGroup]; activeGroupId := newId |}.

(** [handleDeleteGroup]: the next state, and [true] when reading
    [newGroups[0].id] raised because no group was left. *)
Definition handleDeleteGroup (gid : string) (st : AppState) : AppState * bool :=
  if bool_decide (length (groups st) ≤ 1) then (st, false)
  else
    let newGroups := filter (λ g, id g ≠ gid) (groups st) in
    if decide (activeGroupId st = gid) then
      match newGroups with
      | g :: _ => ({| groups := newGroups; activeGroupId := id g |}, false)
      | [] => ({| groups := newGroups; activeGroupId := activeGroupId st |}, true)
      end
    else ({| groups := newGroups; activeGroupId := activeGroupId st |}, false).

Definition set_name (g : SelectionGroup) (newName : string) : SelectionGroup :=
  {| id := id g; name := newName; indices := indices g; visible := visible g;
     color := color g |}.

Definition set_visible (g : SelectionGroup) (b : bool) : SelectionGroup :=
  {| id := id g; name := name g; indices := indices g; visible := b; color := color g |}.

Definition set_color (g : SelectionGroup) (c : string) : SelectionGroup :=
  {| id := id g; name := name g; indices := indices g; visible := visible g; color := c |}.

(** [handleRenameGroup] *)
Definition handleRenameGroup (gid newName : string) (st : AppState) : AppState :=
  {| groups := (λ g, if decide (id g = gid) then set_name g newName else g) <$> groups st;
     activeGroupId := activeGroupId st |}.

(** [handleToggleGroupVisibility] *)
Definition handleToggleGroupVisibility (gid : string) (st : AppState) : AppState :=
  {| groups := (λ g, if decide (id g = gid) then set_visible g (negb (visible g)) else g)
               <$> groups st;
     activeGroupId := activeGroupId st |}.

(** [handleSetGroupColor] *)
Definition handleSetGroupColor (gid c : string) (st : AppState) : AppState :=
  {| groups := (λ g, if decide (id g = gid) then set_color g c else g) <$> groups st;
     activeGroupId := activeGroupId st |}.

(** [setActiveGroupId] *)
Definition setActiveGroupId (gid : string) (st : AppState) : AppState :=
  {| groups := groups st; activeGroupId := gid |}.

(** The update every action on the active group makes:
    [prev.map(g => g.id !== activeGroupId ? g : { ...g, indices: f(g) })]. *)
Definition on_active (f : SelectionGroup → gset Z) (st : AppState) : AppState :=
  {| groups := (λ g, if decide (id g ≠ activeGroupId st) then g
                     else set_indices g (f g)) <$> groups st;
     activeGroupId := activeGroupId st |}.

(** [symmetryMap[idx]]: the keys of the map are the array indices. *)
Definition sym_lookup (m : gmap nat Z) (idx : Z) : option Z :=
  if decide (0 ≤ idx)%Z then m !! Z.to_nat idx else None.

(** [next] of [handleCopySpecular]: a copy of [g.indices] to which
    [symmetryMap[idx]] is added for every [idx] of [g.indices] that has one. *)
Definition specular_indices (m : gmap nat Z) (g : SelectionGroup) : gset Z :=
  set_fold (λ idx next, match sym_lookup m idx with
                        | Some j => {[j]} ∪ next
                        | None => next
                        end) (indices g) (indices g).

(** [handleCopySpecular] *)
Definition handleCopySpecular (m : gmap nat Z) (st : AppState) : AppState :=
  on_active (specular_indices m) st.

(** [handleClear] *)
Definition handleClear (st : AppState) : AppState := on_active (λ _, ∅) st.

(** [new Set(landmarks.map((_, i) => i))], as the list it is built from. *)
Definition allIndices (lms : list Point3D) : list Z := Z.of_nat <$> seq 0 (length lms).

(** [inverse] of [handleInverseSelection]. *)
Definition inverse_indices (lms : list Point3D) (g : SelectionGroup) : gset Z :=
  list_to_set (filter (λ idx, idx ∉ indices g) (allIndices lms)).

(** [handleInverseSelection]: [if (!landmarks) return]. *)
Definition handleInverseSelection (lms : option (list Point3D)) (st : AppState) : AppState :=
  match lms with
  | None => st
  | Some l => on_active (inverse_indices l) st
  end.

(** services/facemesh [detectFace]: [faceLandmarker] is [None] before
    [initFaceMesh] has run; otherwise it carries [result.faceLandmarks] of
    [faceLandmarker.detect(image)].  The outer [None] of the result is the
    raised [Error], the inner one is [null]. *)
Definition detectFace (faceLandmarker : option (list (list Float64.Point3D)))
    : option (option (list Float64.Point3D)) :=
  match faceLandmarker with
  | None => None
  | Some faceLandmarks =>
      match faceLandmarks with
      | face :: _ => Some (Some face)
      | [] => Some None
      end
  end.

(** [handleImageLoaded].  A raise inside the [try] leaves the updates made
    before it in place.  The detected landmarks are doubles: the symmetry
    map is computed from them as they are, the canvas reads them as real
    numbers. *)
Definition handleImageLoaded (faceLandmarker : option (list (list Float64.Point3D)))
    (s : Session) : Session :=
  match detectFace faceLandmarker with
  | Some (Some results) =>
      {| app := initialApp;
         landmarks := Some (Float64.real_point <$> results);
         symmetryMap := match Float64.calculateSymmetryMap results with
                        | Some m => m
                        | None => symmetryMap s
                        end |}
  | Some None => s
  | None => s
  end.

End Groups.

(** ** App: what the user and the loaders can do to a session *)

Module Actions.
Import Geometry Canvas JS App Groups.

(** The state-changing callbacks [App] hands to [Sidebar] and [CanvasArea].
    A brush sample carries what [CanvasArea] adds to it: the loaded image,
    the brush, the view and the screen point. *)
Inductive Action : Type :=
  | AddGroup (newId : string) (r : nat)
  | DeleteGroup (gid : string)
  | RenameGroup (gid newName : string)
  | ToggleGroupVisibility (gid : string)
  | SetGroupColor (gid c : string)
  | SetActiveGroup (gid : string)
  | CopySpecular
  | ClearSelection
  | InverseSelection
  | BrushSample (imgElement : option Image) (brushSize : R) (mode : Mode)
      (v : ViewState) (screenX screenY : R)
  | ImportJSON (genId : nat → string) (rnd : nat → nat) (j : json)
  | ImageLoaded (faceLandmarker : option (list (list Float64.Point3D))).

Definition with_app (s : Session) (st : AppState) : Session :=
  {| app := st; landmarks := landmarks s; symmetryMap := symmetryMap s |}.

Definition perform (a : Action) (s : Session) : Session :=
  match a with
  | AddGroup newId r => with_app s (handleAddGroup newId r (app s))
  | DeleteGroup gid => with_app s (handleDeleteGroup gid (app s)).1
  | RenameGroup gid newName => with_app s (handleRenameGroup gid newName (app s))
  | ToggleGroupVisibility gid => with_app s (handleToggleGroupVisibility gid (app s))
  | SetGroupColor gid c => with_app s (handleSetGroupColor gid c (app s))
  | SetActiveGroup gid => with_app s (setActiveGroupId gid (app s))
  | CopySpecular => with_app s (handleCopySpecular (symmetryMap s) (app s))
  | ClearSelection => with_app s (handleClear (app s))
  | InverseSelection => with_app s (handleInverseSelection (landmarks s) (app s))
  | BrushSample imgElement brushSize mode v screenX screenY =>
      with_app s (brush (landmarks s) imgElement brushSize mode v screenX screenY (app s))
  | ImportJSON genId rnd j => with_app s (handleImportJSON genId rnd j (app s)).1
  | ImageLoaded faceLandmarker => handleImageLoaded faceLandmarker s
  end.

(** [useState] initial values of [App]. *)
Definition initialSession : Session :=
  {| app := initialApp; landmarks := None; symmetryMap := ∅ |}.

End Actions.

(** ** Further predicates *)

Module Props.
Import Geometry Canvas JS App Spec Pointer Render Groups Actions.

(** The scale lies in the range the zoom clamps to. *)
Definition scale_in_range (v : ViewState) : Prop := (0.1 <= scale v <= 20)%R.

(** The group list has pairwise distinct ids and the active id is one of them. *)
Definition well_formed (st : AppState) : Prop :=
  NoDup (id <$> groups st) ∧ activeGroupId st ∈ id <$> groups st.

(** Every selected index is a position of a point set of size [n]. *)
Definition valid_indices (n : nat) (st : AppState) : Prop :=
  ∀ g z, g ∈ groups st → z ∈ indices g → (0 ≤ z < Z.of_nat n)%Z.

(** The calls of [onSelectionChange] a sequence of canvas events makes. *)
Fixpoint emissions (pr : Props) (st : CanvasState) (evs : list CanvasEvent)
    : list (list Z * Mode) :=
  match evs with
  | [] => []
  | ev :: evs' =>
      match (step pr st ev).2 with
      | Some out => out :: emissions pr (step pr st ev).1 evs'
      | None => emissions pr (step pr st ev).1 evs'
      end
  end.

(** The event neither releases the pointer nor reports that it left. *)
Definition keeps_gesture (ev : CanvasEvent) : Prop :=
  ev ≠ PointerUp ∧ ev ≠ PointerLeave.

(** A press of the left button without the shift key. *)
Definition left_press (e : PointerEvent) : Prop :=
  button e = 0%Z ∧ shiftKey e = false.

(** What the surroundings guarantee when an action is performed: a fresh id
    from [generateId], an activation of a listed group (the sidebar offers no
    other), and for the import of an object distinct generated ids and a
    first key that holds an array whenever any key does. *)
Definition admissible (a : Action) (s : Session) : Prop :=
  match a with
  | AddGroup newId _ => newId ∉ id <$> groups (app s)
  | SetActiveGroup gid => gid ∈ id <$> groups (app s)
  | ImportJSON genId _ (JObj members) =>
      (∀ i j, i < length members → j < length members → genId i = genId j → i = j)
      ∧ (omap array_member members = []
         ∨ ∃ k elems rest, members = (k, JArr elems) :: rest)
  | _ => True
  end.

(** Every action of the sequence is admissible in the state it meets. *)
Fixpoint all_admissible (s : Session) (acts : list Action) : Prop :=
  match acts with
  | [] => True
  | a :: acts' => admissible a s ∧ all_admissible (perform a s) acts'
  end.

(** The positions, counted from [idx], of the entries that hold an array. *)
Fixpoint array_positions (idx : nat) (entries : jsobj json) : list nat :=
  match entries with
  | [] => []
  | e :: entries' =>
      match e.2 with
      | JArr _ => idx :: array_positions (S idx) entries'
      | _ => array_positions (S idx) entries'
      end
  end.

End Props.

(** ** Point sets the code is evaluated on *)

Module Meshes.
Import PrimFloat Float64.
Local Open Scope float_scope.

(** The list [f 0, ..., f (n - 1)]. *)
Definition mesh (f : nat → Point3D) (n : nat) : list Point3D := f <$> seq 0 n.

Definition origin : Point3D := mkPoint 0 0 0.
Definition forehead : Point3D := mkPoint 0 1 0.
Definition chin : Point3D := mkPoint 0 (-1) 0.
Definition nose_tip : Point3D := mkPoint 0 0 1.
Definition bridge : Point3D := mkPoint 0 0.5 0.5.

(** Three points, the first and the last at the same place. *)
Definition tie_points : list Point3D :=
  [mkPoint 1 0 0; mkPoint (-1) 0 0; mkPoint 1 0 0].

(** 169 landmarks with the midline in the plane [x = 0]: forehead
    [(0, 1, 0)], chin [(0, -1, 0)], nose tip [(0, 0, 1)], bridge
    [(0, 0.5, 0.5)]; the pairs 2, 3 and 4, 5 mirror each other, the
    landmark 6 has no mirror partner, the others sit at the origin. *)
Definition mirror_mesh : list Point3D :=
  mesh (λ k, match k with
             | 1 => nose_tip
             | 10 => forehead
             | 152 => chin
             | 168 => bridge
             | 2 => mkPoint 0.25 0.5 0
             | 3 => mkPoint (-0.25) 0.5 0
             | 4 => mkPoint 0.5 (-0.25) 0.125
             | 5 => mkPoint (-0.5) (-0.25) 0.125
             | 6 => mkPoint 0.375 0.5 0
             | _ => origin
             end%nat) 169.

(** The same midline, and a landmark 2 at [x = 2^600]: its reflection is at
    [x = -2^600], at a squared distance of at least [2^1200] from every
    landmark. *)
Definition far_mesh : list Point3D :=
  mesh (λ k, match k with
             | 1 => nose_tip
             | 10 => forehead
             | 152 => chin
             | 2 => mkPoint 0x1p+600 0 0
             | _ => origin
             end%nat) 169.

(** A midline of size [2^600]: the cross product of the midline vectors
    overflows. *)
Definition huge_mesh : list Point3D :=
  mesh (λ k, match k with
             | 1 => mkPoint 0 0 0x1p+600
             | 10 => mkPoint 0 0x1p+600 0
             | 152 => mkPoint 0 (-0x1p+600) 0
             | _ => origin
             end%nat) 169.

End Meshes.

(** * Theorems *)

Import Geometry Canvas JS App Spec SymmetrySpec.

(** Settle the comparisons of concrete real numbers in the goal. *)
Ltac decide_reals :=
  repeat match goal with
  | |- context [bool_decide ?P] =>
      first [ rewrite (bool_decide_eq_true_2 P) by lra
            | rewrite (bool_decide_eq_false_2 P) by lra ]
  end.

(** ** The vector helpers in exact arithmetic *)



(** ** The symmetry map *)

(** *** The order of the doubles

    [<] and [<=] on doubles, from their specification on [spec_float]:
    [<] is irreflexive and transitive, and what is not below a bound is not
    at or below anything below that bound. *)

Section FloatOrder.
Import SpecFloat.

Ltac cmp_cases :=
  repeat match goal with
  | H : context [Pos.compare_cont Eq ?a ?b] |- _ =>
      change (Pos.compare_cont Eq a b) with (Pos.compare a b) in H
  | |- context [Pos.compare_cont Eq ?a ?b] =>
      change (Pos.compare_cont Eq a b) with (Pos.compare a b)
  end;
  repeat match goal with
  | H : context [Z.compare ?a ?b] |- _ => destruct (Z.compare_spec a b); simpl in H
  | H : context [Pos.compare ?a ?b] |- _ => destruct (Pos.compare_spec a b); simpl in H
  | |- context [Z.compare ?a ?b] => destruct (Z.compare_spec a b); simpl
  | |- context [Pos.compare ?a ?b] => destruct (Pos.compare_spec a b); simpl
  end;
  try done; try lia.

Lemma SFltb_irrefl a : SFltb a a = false.
Proof.
  unfold SFltb, SFcompare. destruct a as [[]|[]| |[] m e]; simpl; try done; cmp_cases.
Qed.

Lemma SFltb_trans a b c : SFltb a b = true → SFltb b c = true → SFltb a c = true.
Proof.
  unfold SFltb, SFcompare.
  destruct a as [[]|[]| |[] ma ea], b as [[]|[]| |[] mb eb], c as [[]|[]| |[] mc ec];
    simpl; try done; intros H1 H2; cmp_cases.
Qed.

Lemma SFleb_below a b c :
  SFltb a b = true → SFltb c b = false → SFleb c a = false.
Proof.
  unfold SFltb, SFleb, SFcompare.
  destruct a as [[]|[]| |[] ma ea], b as [[]|[]| |[] mb eb], c as [[]|[]| |[] mc ec];
    simpl; try done; intros H1 H2; cmp_cases.
Qed.

End FloatOrder.

Lemma ltb_irrefl (a : PrimFloat.float) : PrimFloat.ltb a a = false.
Proof. rewrite FloatAxioms.ltb_spec. apply SFltb_irrefl. Qed.

Lemma ltb_trans (a b c : PrimFloat.float) :
  PrimFloat.ltb a b = true → PrimFloat.ltb b c = true → PrimFloat.ltb a c = true.
Proof. rewrite !FloatAxioms.ltb_spec. apply SFltb_trans. Qed.

Lemma leb_below (a b c : PrimFloat.float) :
  PrimFloat.ltb a b = true → PrimFloat.ltb c b = false → PrimFloat.leb c a = false.
Proof. rewrite !FloatAxioms.ltb_spec, FloatAxioms.leb_spec. apply SFleb_below. Qed.

(** *** The source computes what the specification's steps describe *)

Lemma distSq_sqdist (q r : Float64.Point3D) : Float64.distSq q r = sqdist q r.
Proof. reflexivity. Qed.

Lemma reflect_reflected (P0 n p : Float64.Point3D) :
  Float64.reflect P0 n p = reflected P0 n p.
Proof. reflexivity. Qed.

Lemma normalize_unit_vector (a : Float64.Point3D) :
  Float64.normalize a = unit_vector a.
Proof. reflexivity. Qed.

(** *** The nearest-neighbour scan *)

Section SymmetryMap.

Variable landmarks : list Float64.Point3D.
Variable r : Float64.Point3D.

Lemma nearest_from_inv qs : ∀ pre bestDist bestIdx,
  landmarks = pre ++ qs →
  best_inv landmarks r (length pre) bestDist bestIdx →
  best_inv landmarks r (length landmarks)
    (Float64.nearest_from r (length pre) qs bestDist bestIdx).1
    (Float64.nearest_from r (length pre) qs bestDist bestIdx).2.
Proof.
  induction qs as [|q qs IH]; intros pre bd bi Hall Hinv; simpl.
  - assert (length landmarks = length pre) as ->; [|exact Hinv].
    rewrite Hall, length_app; simpl; lia.
  - assert (Hq : landmarks !! length pre = Some q).
    { rewrite Hall. by rewrite list_lookup_middle. }
    assert (Hall' : landmarks = (pre ++ [q]) ++ qs) by (by rewrite <- app_assoc).
    assert (Hlen : length (pre ++ [q]) = S (length pre)).
    { rewrite length_app; simpl; lia. }
    rewrite distSq_sqdist.
    destruct (PrimFloat.ltb (sqdist q r) bd) eqn:Hb.
    + specialize (IH (pre ++ [q]) (sqdist q r) (Z.of_nat (length pre)) Hall').
      rewrite Hlen in IH. apply IH. right.
      exists (length pre), q.
      split; [done|]. split; [lia|]. split; [done|]. split; [done|].
      assert (Hfin : PrimFloat.ltb (sqdist q r) PrimFloat.infinity = true).
      { destruct Hinv as [(_ & -> & _)|(j & qj & _ & _ & _ & _ & Hj & _)]; [done|].
        by apply (ltb_trans _ bd). }
      split; [done|].
      assert (Hold : ∀ m q', m < length pre → landmarks !! m = Some q' →
                PrimFloat.ltb (sqdist q' r) bd = false).
      { intros m q' Hm Hq'.
        destruct Hinv as [(_ & -> & Hnone)|(j & qj & _ & _ & _ & _ & _ & Hmin & _)];
          eauto. }
      split.
      * intros m q' Hm Hq'.
        destruct (decide (m = length pre)) as [->|Hne].
        { rewrite Hq in Hq'. injection Hq' as <-. apply ltb_irrefl. }
        destruct (PrimFloat.ltb (sqdist q' r) (sqdist q r)) eqn:Hlt; [|done].
        rewrite <- (Hold m q'); [|lia|done].
        symmetry. by apply (ltb_trans _ (sqdist q r)).
      * intros m q' Hm Hq'. apply (leb_below _ bd); [done|]. by apply (Hold m q').
    + specialize (IH (pre ++ [q]) bd bi Hall').
      rewrite Hlen in IH. apply IH.
      destruct Hinv as [(-> & -> & Hnone)
                       |(j & qj & -> & Hj & Hqj & -> & Hfin & Hmin & Hfirst)].
      * left. split; [done|]. split; [done|]. intros m q' Hm Hq'.
        destruct (decide (m = length pre)) as [->|Hne].
        { rewrite Hq in Hq'. by injection Hq' as <-. }
        apply (Hnone m q'); [lia|done].
      * right. exists j, qj.
        split; [done|]. split; [lia|]. split; [done|]. split; [done|]. split; [done|].
        split; [|done]. intros m q' Hm Hq'.
        destruct (decide (m = length pre)) as [->|Hne].
        { rewrite Hq in Hq'. by injection Hq' as <-. }
        apply (Hmin m q'); [lia|done].
Qed.

Lemma nearest_choice_nearest :
  nearest_choice landmarks r (Float64.nearest landmarks r).
Proof.
  unfold Float64.nearest.
  assert (H0 : best_inv landmarks r 0 PrimFloat.infinity (-1)%Z).
  { left. split; [done|]. split; [done|]. intros m q Hm _. lia. }
  pose proof (nearest_from_inv landmarks [] PrimFloat.infinity (-1)%Z eq_refl H0) as H.
  simpl in H.
  destruct H as [(-> & _ & Hnone)|(j & q & -> & Hj & Hq & Hd & Hfin & Hmin & Hfirst)].
  - left. split; [done|]. intros q (m & Hm)%list_elem_of_lookup_1.
    apply (Hnone m q); [by eapply lookup_lt_Some|done].
  - right. exists j. split; [done|]. exists q. rewrite Hd in *.
    split; [done|]. split; [done|]. split; [|done].
    intros k q' Hk. apply (Hmin k q'); [by eapply lookup_lt_Some|done].
Qed.

(** The stored value is [-1] or a position of the point set, and it is [-1]
    exactly when there is no candidate. *)
Lemma nearest_range :
  (-1 ≤ Float64.nearest landmarks r < Z.of_nat (length landmarks))%Z
  ∧ (Float64.nearest landmarks r = (-1)%Z ↔ no_candidate landmarks r).
Proof.
  destruct nearest_choice_nearest as [[Hv Hnone]|(j & Hv & q & Hq & Hfin & _)].
  - rewrite Hv. split; [lia|done].
  - rewrite Hv. pose proof (lookup_lt_Some _ _ _ Hq). split; [lia|].
    split; [lia|]. intros Hnone. exfalso.
    rewrite (Hnone q) in Hfin; [done|]. by eapply list_elem_of_lookup_2.
Qed.

End SymmetryMap.

Section FillMap.

Variable landmarks : list Float64.Point3D.
Variables planePoint planeNormal : Float64.Point3D.

Lemma fill_map_lookup_lt ps : ∀ i (m : gmap nat Z) k,
  k < i → Float64.fill_map landmarks planePoint planeNormal i ps m !! k = m !! k.
Proof.
  induction ps as [|p ps IH]; intros i m k Hk; simpl; [done|].
  rewrite IH by lia. apply lookup_insert_ne. lia.
Qed.

Lemma fill_map_lookup_ge ps : ∀ i (m : gmap nat Z) k,
  i + length ps ≤ k →
  Float64.fill_map landmarks planePoint planeNormal i ps m !! k = m !! k.
Proof.
  induction ps as [|p ps IH]; intros i m k Hk; simpl in *; [done|].
  rewrite IH by lia. apply lookup_insert_ne. lia.
Qed.

Lemma fill_map_lookup ps : ∀ i (m : gmap nat Z) d p,
  ps !! d = Some p →
  Float64.fill_map landmarks planePoint planeNormal i ps m !! (i + d)
  = Some (Float64.nearest landmarks (reflected planePoint planeNormal p)).
Proof.
  induction ps as [|p0 ps IH]; intros i m d p Hd; [done|].
  destruct d as [|d]; simpl in *.
  - injection Hd as ->. rewrite fill_map_lookup_lt by lia.
    rewrite Nat.add_0_r, reflect_reflected. apply lookup_insert_eq.
  - replace (i + S d) with (S i + d) by lia. by apply IH.
Qed.

End FillMap.

Lemma calculateSymmetryMap_present (landmarks : list Float64.Point3D)
    (p1 p10 p152 p168 : Float64.Point3D) :
  landmarks !! 1 = Some p1 → landmarks !! 10 = Some p10 →
  landmarks !! 152 = Some p152 → landmarks !! 168 = Some p168 →
  Float64.calculateSymmetryMap landmarks
  = Some (Float64.fill_map landmarks (plane_point p10 p152 p168)
            (unit_normal p10 p152 p1) 0 landmarks ∅).
Proof.
  intros H1 H10 H152 H168. unfold Float64.calculateSymmetryMap.
  rewrite H10, H152, H168, H1. reflexivity.
Qed.

(** A computed symmetry map is defined on the positions of the point set. *)
Lemma calculateSymmetryMap_domain (landmarks : list Float64.Point3D)
    (p1 p10 p152 p168 : Float64.Point3D) (m : gmap nat Z) (i : nat) :
  landmarks !! 1 = Some p1 → landmarks !! 10 = Some p10 →
  landmarks !! 152 = Some p152 → landmarks !! 168 = Some p168 →
  Float64.calculateSymmetryMap landmarks = Some m →
  is_Some (m !! i) ↔ i < length landmarks.
Proof.
  intros H1 H10 H152 H168.
  rewrite (calculateSymmetryMap_present landmarks p1 p10 p152 p168) by done.
  intros [= <-]. split.
  - intros Hsome. destruct (decide (i < length landmarks)) as [|Hge]; [done|].
    rewrite fill_map_lookup_ge in Hsome by (simpl; lia).
    rewrite lookup_empty in Hsome. by destruct Hsome.
  - intros Hi. apply lookup_lt_is_Some in Hi as [p Hp].
    by rewrite (fill_map_lookup landmarks _ _ landmarks 0 ∅ i p Hp).
Qed.

(** C3, as the code has it.  When the midline landmarks 10, 152 and 168 and
    the nose tip 1 are present, [calculateSymmetryMap] returns a map whose
    value at every index [i] of the point set is the choice of the
    nearest-neighbour search for the reflection of point [i] across the
    computed plane (plane point: mean of the midline points; normal:
    normalised cross product of forehead - chin and nose tip - chin): the
    index [j] at minimal computed squared Euclidean distance from the
    reflection among the landmarks whose computed squared distance is below
    [Infinity], the lowest such index when several attain the minimum; and
    [-1] when no computed squared distance is below [Infinity]. *)
Theorem calculateSymmetryMap_nearest (landmarks : list Float64.Point3D)
    (p1 p10 p152 p168 : Float64.Point3D) :
  landmarks !! 1 = Some p1 → landmarks !! 10 = Some p10 →
  landmarks !! 152 = Some p152 → landmarks !! 168 = Some p168 →
  ∃ m, Float64.calculateSymmetryMap landmarks = Some m
       ∧ ∀ i p, landmarks !! i = Some p →
           ∃ v, m !! i = Some v
                ∧ nearest_choice landmarks
                    (reflected (plane_point p10 p152 p168)
                       (unit_normal p10 p152 p1) p) v.
Proof.
  intros H1 H10 H152 H168.
  eexists. split; [by apply (calculateSymmetryMap_present landmarks p1 p10 p152 p168)|].
  intros i p Hi. eexists. split.
  - by apply (fill_map_lookup landmarks _ _ landmarks 0 ∅ i p).
  - apply nearest_choice_nearest.
Qed.

Lemma calculateSymmetryMap_nearest_witness :
  ∃ m, Float64.calculateSymmetryMap Meshes.mirror_mesh = Some m
       ∧ ∀ i p, Meshes.mirror_mesh !! i = Some p →
           ∃ v, m !! i = Some v
                ∧ nearest_choice Meshes.mirror_mesh
                    (reflected
                       (plane_point Meshes.forehead Meshes.chin Meshes.bridge)
                       (unit_normal Meshes.forehead Meshes.chin Meshes.nose_tip) p) v.
Proof.
  apply (calculateSymmetryMap_nearest Meshes.mirror_mesh); reflexivity.
Defined.

(** C3, counterexample.  In [far_mesh] every coordinate is a finite double
    and the midline landmarks are present.  The reflection of landmark 2 is
    at a squared distance of at least [2^1200] from every landmark, each
    computed squared distance is [Infinity], [d < bestDist] is never true
    and [map[2]] is the initial [-1]: not the index of any landmark, while
    index 0 is mapped to an index. *)
Lemma calculateSymmetryMap_unmatched :
  forallb Float64.finite_point Meshes.far_mesh = true
  ∧ is_Some (Meshes.far_mesh !! 10) ∧ is_Some (Meshes.far_mesh !! 152)
  ∧ is_Some (Meshes.far_mesh !! 168)
  ∧ ∃ m, Float64.calculateSymmetryMap Meshes.far_mesh = Some m
         ∧ m !! 2 = Some (-1)%Z
         ∧ m !! 0 = Some 0%Z
         ∧ ¬ ∃ j : nat, m !! 2 = Some (Z.of_nat j).
Proof.
  split; [vm_compute; reflexivity|].
  split; [by eexists|]. split; [by eexists|]. split; [by eexists|].
  exists (Float64.fill_map Meshes.far_mesh
            (plane_point Meshes.forehead Meshes.chin Meshes.origin)
            (unit_normal Meshes.forehead Meshes.chin Meshes.nose_tip)
            0 Meshes.far_mesh ∅).
  split; [reflexivity|].
  assert (H2 : Float64.fill_map Meshes.far_mesh
                 (plane_point Meshes.forehead Meshes.chin Meshes.origin)
                 (unit_normal Meshes.forehead Meshes.chin Meshes.nose_tip)
                 0 Meshes.far_mesh ∅ !! 2
               = Some (-1)%Z) by (vm_compute; reflexivity).
  split; [exact H2|]. split; [vm_compute; reflexivity|].
  intros [j Hj]. rewrite H2 in Hj. injection Hj as Hj. lia.
Qed.

(** C7.  When any of the three midline landmarks (10, 152, 168) is absent,
    [calculateSymmetryMap] returns normally with the empty map: no
    correspondence is recorded and no fallback plane is tried. *)
Theorem calculateSymmetryMap_missing_midline (landmarks : list Float64.Point3D) :
  landmarks !! 10 = None ∨ landmarks !! 152 = None ∨ landmarks !! 168 = None →
  Float64.calculateSymmetryMap landmarks = Some ∅.
Proof.
  intros H. unfold Float64.calculateSymmetryMap.
  destruct (landmarks !! 10), (landmarks !! 152), (landmarks !! 168);
    try reflexivity.
  destruct H as [H|[H|H]]; discriminate H.
Qed.

Lemma calculateSymmetryMap_missing_midline_witness :
  Float64.calculateSymmetryMap (replicate 160 Meshes.origin) = Some ∅.
Proof.
  apply calculateSymmetryMap_missing_midline. right; right. reflexivity.
Defined.

(** C9, as the code has it.  On a non-empty landmark list in which the
    indices 1, 10, 152 and 168 are present, [calculateSymmetryMap] returns
    normally (no read of an absent landmark raises; [normalize] returns the
    zero vector when the length is 0 and divides by the length only
    otherwise), the map it returns is defined exactly on the indices
    [0 <= i < N], and every value [map[i]] is an index in [0, N) or the
    initial [-1]; it is [-1] exactly when no landmark is at a computed
    squared distance below [Infinity] from the reflection of point [i]. *)
Theorem calculateSymmetryMap_total (landmarks : list Float64.Point3D)
    (p1 p10 p152 p168 : Float64.Point3D) :
  landmarks ≠ [] →
  landmarks !! 1 = Some p1 → landmarks !! 10 = Some p10 →
  landmarks !! 152 = Some p152 → landmarks !! 168 = Some p168 →
  (∀ a, Float64.normalize a
        = if zero_length a then zero_vector
          else Float64.mkPoint (PrimFloat.div (Float64.x a) (vec_length a))
                 (PrimFloat.div (Float64.y a) (vec_length a))
                 (PrimFloat.div (Float64.z a) (vec_length a)))
  ∧ ∃ m, Float64.calculateSymmetryMap landmarks = Some m
       ∧ (∀ i, is_Some (m !! i) ↔ i < length landmarks)
       ∧ ∀ i p, landmarks !! i = Some p →
           ∃ v, m !! i = Some v
                ∧ (-1 ≤ v < Z.of_nat (length landmarks))%Z
                ∧ (v = (-1)%Z
                   ↔ no_candidate landmarks
                       (reflected (plane_point p10 p152 p168)
                          (unit_normal p10 p152 p1) p)).
Proof.
  intros _ H1 H10 H152 H168. split; [reflexivity|].
  eexists. split; [by apply (calculateSymmetryMap_present landmarks p1 p10 p152 p168)|].
  split.
  - intros i. apply (calculateSymmetryMap_domain landmarks p1 p10 p152 p168); [done..|].
    by apply calculateSymmetryMap_present.
  - intros i p Hi. eexists. split.
    + by apply (fill_map_lookup landmarks _ _ landmarks 0 ∅ i p).
    + apply nearest_range.
Qed.

Lemma calculateSymmetryMap_total_witness :
  (∀ a, Float64.normalize a
        = if zero_length a then zero_vector
          else Float64.mkPoint (PrimFloat.div (Float64.x a) (vec_length a))
                 (PrimFloat.div (Float64.y a) (vec_length a))
                 (PrimFloat.div (Float64.z a) (vec_length a)))
  ∧ ∃ m, Float64.calculateSymmetryMap Meshes.mirror_mesh = Some m
       ∧ (∀ i, is_Some (m !! i) ↔ i < length Meshes.mirror_mesh)
       ∧ ∀ i p, Meshes.mirror_mesh !! i = Some p →
           ∃ v, m !! i = Some v
                ∧ (-1 ≤ v < Z.of_nat (length Meshes.mirror_mesh))%Z
                ∧ (v = (-1)%Z
                   ↔ no_candidate Meshes.mirror_mesh
                       (reflected
                          (plane_point Meshes.forehead Meshes.chin Meshes.bridge)
                          (unit_normal Meshes.forehead Meshes.chin Meshes.nose_tip) p)).
Proof.
  apply (calculateSymmetryMap_total Meshes.mirror_mesh); [discriminate|reflexivity..].
Defined.

(** C9, counterexample.  In [huge_mesh] every coordinate is a finite double
    and the indices 1, 10, 152 and 168 are present.  The cross product of the
    midline vectors overflows, its length is [Infinity], the normal has a
    [NaN] component, every reflection and every squared distance is [NaN],
    and every value of the returned map is [-1], which is no index of the
    point set. *)
Lemma calculateSymmetryMap_all_unmatched :
  forallb Float64.finite_point Meshes.huge_mesh = true
  ∧ Meshes.huge_mesh ≠ []
  ∧ is_Some (Meshes.huge_mesh !! 1) ∧ is_Some (Meshes.huge_mesh !! 10)
  ∧ is_Some (Meshes.huge_mesh !! 152) ∧ is_Some (Meshes.huge_mesh !! 168)
  ∧ ∃ m, Float64.calculateSymmetryMap Meshes.huge_mesh = Some m
         ∧ (λ i, m !! i) <$> seq 0 169 = replicate 169 (Some (-1)%Z).
Proof.
  split; [vm_compute; reflexivity|]. split; [discriminate|].
  split; [by eexists|]. split; [by eexists|]. split; [by eexists|]. split; [by eexists|].
  eexists. split; [reflexivity|]. vm_compute. reflexivity.
Qed.

(** ** Brush selection in the canvas *)

Section Brush.

Variable img : Image.
Variable worldPos : Point2D.
Variable worldRadiusSq : R.

Lemma elem_of_brush_scan ls : ∀ i0 z,
  z ∈ brush_scan img worldPos worldRadiusSq i0 ls
  ↔ ∃ d l, z = Z.of_nat (i0 + d) ∧ ls !! d = Some l
           ∧ (distSq2 img l worldPos < worldRadiusSq)%R.
Proof.
  induction ls as [|l0 ls IH]; intros i0 z; simpl.
  - split; [by intros ?%elem_of_nil|]. by intros (d & l & _ & ? & _).
  - case_bool_decide as Hlt.
    + rewrite elem_of_cons, IH. split.
      * intros [->|(d & l & -> & Hd & Hl)].
        -- exists 0, l0. by rewrite Nat.add_0_r.
        -- exists (S d), l. split; [f_equal; lia|done].
      * intros (d & l & -> & Hd & Hl). destruct d as [|d]; simpl in Hd.
        -- left. by rewrite Nat.add_0_r.
        -- right. exists d, l. split; [f_equal; lia|done].
    + rewrite IH. split.
      * intros (d & l & -> & Hd & Hl).
        exists (S d), l. split; [f_equal; lia|done].
      * intros (d & l & -> & Hd & Hl). destruct d as [|d]; simpl in Hd.
        -- injection Hd as ->. done.
        -- exists d, l. split; [f_equal; lia|done].
Qed.

End Brush.


(** ** The hover probe *)

Section Hover.

Variable img : Image.
Variable worldPos : Point2D.
Variable hoverThresh : R.

Local Abbreviation within l := (sqrt (distSq2 img l worldPos) < hoverThresh)%R.


End Hover.



(** ** Wheel zoom *)

(** C5.  For a view whose scale lies in [0.1, 20], [handleWheel] sets the
    scale to [clamp(scale * exp(-deltaY * 0.001), 0.1, 20)]: a product below
    0.1 gives exactly 0.1, a product above 20 gives exactly 20, and the new
    scale stays in [0.1, 20].  The pan is recomputed with the old scale so
    that the world point under the cursor is drawn at the cursor again. *)
Theorem handleWheel_anchor (v : ViewState) (mouseX mouseY deltaY : R) :
  (0.1 <= scale v <= 20)%R →
  let target := (scale v * exp (- deltaY * 0.001))%R in
  let v' := handleWheel v mouseX mouseY deltaY in
  scale v' = clamp target 0.1 20
  ∧ ((target < 0.1)%R → scale v' = 0.1%R)
  ∧ ((20 < target)%R → scale v' = 20%R)
  ∧ (0.1 <= scale v' <= 20)%R
  ∧ worldToScreen v (screenToWorld v mouseX mouseY) = mkPoint2D mouseX mouseY
  ∧ worldToScreen v' (screenToWorld v mouseX mouseY) = mkPoint2D mouseX mouseY.
Proof.
  intros Hs target v'.
  assert (Hscale : scale v' = Rmax 0.1 (Rmin 20 target)) by reflexivity.
  assert (Hclamp : scale v' = clamp target 0.1 20).
  { rewrite Hscale. unfold clamp, Rmax, Rmin.
    repeat case_decide; repeat destruct (Rle_dec _ _); lra. }
  split; [exact Hclamp|].
  split. { intros Hlt. rewrite Hclamp. unfold clamp. by rewrite decide_True. }
  split. { intros Hgt. rewrite Hclamp. unfold clamp.
           rewrite decide_False by lra. by rewrite decide_True. }
  split. { rewrite Hclamp. unfold clamp. repeat case_decide; lra. }
  assert (Hnz : scale v ≠ 0%R) by lra.
  split.
  - unfold worldToScreen, screenToWorld; simpl. f_equal; field; exact Hnz.
  - unfold worldToScreen, screenToWorld. rewrite Hscale.
    unfold v', handleWheel, target, zoomSensitivity; simpl.
    f_equal; field; exact Hnz.
Qed.

Lemma handleWheel_anchor_witness :
  let v := mkView 1 (mkPoint2D 0 0) in
  let target := (scale v * exp (- 100 * 0.001))%R in
  let v' := handleWheel v 10 10 100 in
  scale v' = clamp target 0.1 20
  ∧ ((target < 0.1)%R → scale v' = 0.1%R)
  ∧ ((20 < target)%R → scale v' = 20%R)
  ∧ (0.1 <= scale v' <= 20)%R
  ∧ worldToScreen v (screenToWorld v 10 10) = mkPoint2D 10 10
  ∧ worldToScreen v' (screenToWorld v 10 10) = mkPoint2D 10 10.
Proof.
  apply (handleWheel_anchor (mkView 1 (mkPoint2D 0 0)) 10 10 100). simpl. lra.
Defined.

(** ** Selection updates in the application *)

Lemma foldl_apply_index_add idxs : ∀ (s : gset Z) (c : bool),
  (foldl (apply_index Add) (s, c) idxs).1 = s ∪ list_to_set idxs.
Proof.
  induction idxs as [|z idxs IH]; intros s c; simpl.
  - set_solver.
  - case_decide; rewrite IH; set_solver.
Qed.

Lemma foldl_apply_index_subtract idxs : ∀ (s : gset Z) (c : bool),
  (foldl (apply_index Subtract) (s, c) idxs).1 = s ∖ list_to_set idxs.
Proof.
  induction idxs as [|z idxs IH]; intros s c; simpl.
  - set_solver.
  - case_decide; rewrite IH; set_solver.
Qed.

(** When [changed] is still [false] after the loop, the copy equals the
    set it was made from. *)
Lemma foldl_apply_index_unchanged mode idxs : ∀ (s : gset Z) (c : bool),
  (foldl (apply_index mode) (s, c) idxs).2 = false →
  (foldl (apply_index mode) (s, c) idxs).1 = s ∧ c = false.
Proof.
  induction idxs as [|z idxs IH]; intros s c; simpl; [done|].
  destruct mode; simpl; case_decide; intros Hc; apply IH in Hc as [? ?]; done.
Qed.

Lemma update_group_indices idxs mode (g : SelectionGroup) :
  indices (update_group idxs mode g)
  = (foldl (apply_index mode) (indices g, false) idxs).1.
Proof.
  unfold update_group.
  destruct (foldl (apply_index mode) (indices g, false) idxs) as [s c] eqn:Hf.
  destruct c; simpl; [done|].
  pose proof (foldl_apply_index_unchanged mode idxs (indices g) false) as H.
  rewrite Hf in H. symmetry. by apply H.
Qed.

Lemma update_group_fields idxs mode (g : SelectionGroup) :
  id (update_group idxs mode g) = id g
  ∧ name (update_group idxs mode g) = name g
  ∧ visible (update_group idxs mode g) = visible g
  ∧ color (update_group idxs mode g) = color g.
Proof.
  unfold update_group.
  destruct (foldl (apply_index mode) (indices g, false) idxs) as [s [|]]; done.
Qed.

Lemma handleSelectionChange_lookup activeId idxs mode (gs : list SelectionGroup) k :
  handleSelectionChange activeId idxs mode gs !! k
  = (λ g, if decide (id g ≠ activeId) then g else update_group idxs mode g)
      <$> gs !! k.
Proof. unfold handleSelectionChange. apply list_lookup_fmap. Qed.

(** C10.  A brush-driven selection update keeps the list of groups in place:
    every group whose id differs from the active id is returned as it was,
    and a group with the active id keeps its id, name, visibility and color
    (only its index set may differ). *)
Theorem handleSelectionChange_frame (activeId : string) (idxs : list Z)
    (mode : Mode) (gs : list SelectionGroup) :
  length (handleSelectionChange activeId idxs mode gs) = length gs
  ∧ ∀ k g, gs !! k = Some g →
      ∃ g', handleSelectionChange activeId idxs mode gs !! k = Some g'
            ∧ (id g ≠ activeId → g' = g)
            ∧ id g' = id g ∧ name g' = name g
            ∧ visible g' = visible g ∧ color g' = color g.
Proof.
  split.
  - unfold handleSelectionChange. apply length_fmap.
  - intros k g Hk. rewrite handleSelectionChange_lookup, Hk. simpl.
    eexists. split; [reflexivity|].
    case_decide as Hid; [done|].
    split; [done|]. apply update_group_fields.
Qed.

Lemma handleSelectionChange_frame_witness :
  let g1 := mkGroup "1" "Default" ∅ true "#bb86fc" in
  let g2 := mkGroup "2" "Lips" {[3%Z]} false "#03dac6" in
  ∃ g', handleSelectionChange "1" [3%Z; 4%Z] Add [g1; g2] !! 1 = Some g'
        ∧ ("2"%string ≠ "1"%string → g' = g2)
        ∧ id g' = "2"%string ∧ name g' = "Lips"%string
        ∧ visible g' = false ∧ color g' = "#03dac6"%string.
Proof.
  intros g1 g2.
  apply (proj2 (handleSelectionChange_frame "1" [3%Z; 4%Z] Add [g1; g2]) 1 g2).
  reflexivity.
Defined.

Section AddSubtract.

Variable landmarks : list Point3D.
Variable img : Image.
Variable brushSize : R.
Variable v : ViewState.
Variables screenX screenY : R.

Local Abbreviation touched :=
  (indicesToUpdate img landmarks brushSize v screenX screenY).
Local Abbreviation brush_with mode :=
  (brush (Some landmarks) (Some img) brushSize mode v screenX screenY).

Lemma brush_activeGroupId mode st :
  activeGroupId (brush_with mode st) = activeGroupId st.
Proof.
  unfold brush.
  by destruct (performSelection _ _ _ _ _ _ _) as [[? ?]|].
Qed.

(** The index set of an active group after one brush sample. *)
Lemma brush_active_indices mode st k g :
  groups st !! k = Some g → id g = activeGroupId st →
  ∃ g', groups (brush_with mode st) !! k = Some g'
        ∧ id g' = id g
        ∧ indices g' = match mode with
                       | Add => indices g ∪ list_to_set touched
                       | Subtract => indices g ∖ list_to_set touched
                       end.
Proof.
  intros Hk Hid. unfold brush, performSelection.
  case_bool_decide as Hlen; simpl.
  - rewrite handleSelectionChange_lookup, Hk. simpl.
    rewrite decide_False by (intros H; by apply H).
    eexists. split; [reflexivity|]. split; [apply update_group_fields|].
    rewrite update_group_indices.
    destruct mode; [apply foldl_apply_index_add|apply foldl_apply_index_subtract].
  - exists g. split; [done|]. split; [done|].
    destruct touched; [|simpl in Hlen; lia]. destruct mode; set_solver.
Qed.

Lemma brush_add_subtract_indices st k g :
  groups st !! k = Some g → id g = activeGroupId st →
  ∃ g2, groups (brush_with Subtract (brush_with Add st)) !! k = Some g2
        ∧ indices g2 = indices g ∖ list_to_set touched.
Proof.
  intros Hk Hid.
  destruct (brush_active_indices Add st k g Hk Hid) as (g1 & Hk1 & Hid1 & Hi1).
  destruct (brush_active_indices Subtract (brush_with Add st) k g1 Hk1)
    as (g2 & Hk2 & _ & Hi2).
  { rewrite brush_activeGroupId. congruence. }
  exists g2. split; [done|]. rewrite Hi2, Hi1. set_solver.
Qed.

End AddSubtract.

(** C1, as the code has it.  A brush application in Add mode followed by one
    in Subtract mode, at the same screen point and radius over the same
    landmarks and view, leaves every active group with its index set before
    the Add minus the indices under the brush; this is the set before the
    Add exactly when none of the indices under the brush was in it. *)
Theorem brush_add_then_subtract (landmarks : list Point3D) (img : Image)
    (brushSize : R) (v : ViewState) (screenX screenY : R) (st : AppState)
    (k : nat) (g : SelectionGroup) :
  groups st !! k = Some g → id g = activeGroupId st →
  let touched := indicesToUpdate img landmarks brushSize v screenX screenY in
  let st2 :=
    brush (Some landmarks) (Some img) brushSize Subtract v screenX screenY
      (brush (Some landmarks) (Some img) brushSize Add v screenX screenY st) in
  ∃ g2, groups st2 !! k = Some g2
        ∧ indices g2 = indices g ∖ list_to_set touched
        ∧ (indices g2 = indices g ↔ ∀ z, z ∈ touched → z ∉ indices g).
Proof.
  intros Hk Hid touched st2.
  destruct (brush_add_subtract_indices landmarks img brushSize v screenX screenY
              st k g Hk Hid) as (g2 & Hk2 & Hi2).
  exists g2. split; [done|]. split; [done|].
  rewrite Hi2. fold touched. set_solver.
Qed.

Lemma brush_add_then_subtract_witness :
  let lms := [mkPoint 0 0 0; mkPoint 1 0 0] in
  let img := mkImage 100 100 in
  let v := mkView 1 (mkPoint2D 0 0) in
  let g := mkGroup "1" "Default" {[1%Z]} true "#bb86fc" in
  let st := mkApp [g] "1" in
  let touched := indicesToUpdate img lms 10 v 0 0 in
  let st2 := brush (Some lms) (Some img) 10 Subtract v 0 0
               (brush (Some lms) (Some img) 10 Add v 0 0 st) in
  ∃ g2, groups st2 !! 0 = Some g2
        ∧ indices g2 = indices g ∖ list_to_set touched
        ∧ (indices g2 = indices g ↔ ∀ z, z ∈ touched → z ∉ indices g).
Proof.
  intros lms img v g st.
  apply (brush_add_then_subtract lms img 10 v 0 0 st 0 g); reflexivity.
Defined.

(** C1, counterexample.  One landmark at the origin of a 1 x 1 image, the
    identity view, a brush of radius 10 at the screen origin, and an active
    group that already holds index 0: the Add changes nothing, the Subtract
    removes index 0, and the group ends empty instead of holding [{0}]. *)
Lemma brush_add_subtract_not_restored :
  let lms := [mkPoint 0 0 0] in
  let img := mkImage 1 1 in
  let v := mkView 1 (mkPoint2D 0 0) in
  let g := mkGroup "1" "Default" {[0%Z]} true "#bb86fc" in
  let st := mkApp [g] "1" in
  let st2 := brush (Some lms) (Some img) 10 Subtract v 0 0
               (brush (Some lms) (Some img) 10 Add v 0 0 st) in
  indicesToUpdate img lms 10 v 0 0 = [0%Z]
  ∧ ∃ g2, groups st2 !! 0 = Some g2 ∧ id g2 = activeGroupId st2
          ∧ indices g2 = ∅ ∧ indices g2 ≠ indices g.
Proof.
  intros lms img v g st st2.
  assert (Ht : indicesToUpdate img lms 10 v 0 0 = [0%Z]).
  { unfold indicesToUpdate, lms. cbn [brush_scan].
    rewrite bool_decide_eq_true_2; [reflexivity|].
    unfold distSq2, screenToWorld; simpl. lra. }
  split; [exact Ht|].
  destruct (brush_add_subtract_indices lms img 10 v 0 0 st 0 g eq_refl eq_refl)
    as (g2 & Hk2 & Hi2).
  rewrite Ht in Hi2.
  assert (Hid2 : id g2 = activeGroupId st2).
  { destruct (brush_active_indices lms img 10 v 0 0 Add st 0 g eq_refl eq_refl)
      as (g1 & Hk1 & Hid1 & _).
    destruct (brush_active_indices lms img 10 v 0 0 Subtract _ 0 g1 Hk1)
      as (g2' & Hk2' & Hid2' & _).
    { rewrite brush_activeGroupId. exact Hid1. }
    unfold st2. rewrite !brush_activeGroupId.
    assert (g2 = g2') as -> by congruence.
    rewrite Hid2', Hid1. reflexivity. }
  exists g2. split; [exact Hk2|]. split; [exact Hid2|].
  assert (He : indices g2 = ∅) by (rewrite Hi2; simpl; set_solver).
  split; [exact He|]. rewrite He. simpl. set_solver.
Qed.

(** ** Objects as ordered entry lists *)

Section Objects.

Context {A : Type}.
Implicit Types (o : jsobj A) (k : string) (v : A).

Lemma array_index_pretty k n : array_index k = Some n → k = pretty n.
Proof.
  unfold array_index. destruct (parse_digits k 0) as [m|]; [|done].
  case_decide as Hp; [|done]. destruct (m <? 2 ^ 32 - 1)%N; [|done].
  intros [= <-]. done.
Qed.

Lemma array_index_inj k1 k2 n :
  array_index k1 = Some n → array_index k2 = Some n → k1 = k2.
Proof. intros H1%array_index_pretty H2%array_index_pretty. congruence. Qed.

Lemma has_key_true k o : has_key k o = true ↔ k ∈ o.*1.
Proof. unfold has_key. apply bool_decide_eq_true. Qed.

Lemma has_key_false k o : has_key k o = false ↔ k ∉ o.*1.
Proof. unfold has_key. apply bool_decide_eq_false. Qed.

Lemma replace_value_keys k v o : (replace_value k v o).*1 = o.*1.
Proof.
  induction o as [|[k' v'] o IH]; csimpl; [done|].
  case_decide; csimpl; [done|]. by rewrite IH.
Qed.

Lemma elem_of_insert_index_keys n k v o x :
  x ∈ (insert_index n k v o).*1 ↔ x = k ∨ x ∈ o.*1.
Proof.
  induction o as [|[k' v'] o IH]; csimpl.
  - set_solver.
  - destruct (array_index k') as [n'|]; [destruct (n' <? n)%N|]; csimpl;
      rewrite ?elem_of_cons, ?IH; set_solver.
Qed.

Lemma insert_index_append n k v o :
  (∀ k', k' ∈ o.*1 → ∃ n', array_index k' = Some n' ∧ (n' < n)%N) →
  insert_index n k v o = o ++ [(k, v)].
Proof.
  induction o as [|[k' v'] o IH]; csimpl; intros Hall; [done|].
  destruct (Hall k') as (n' & -> & Hlt); [set_solver|].
  apply N.ltb_lt in Hlt as ->. f_equal. apply IH.
  intros k'' Hk''. apply Hall. set_solver.
Qed.

Lemma insert_index_canonical n k v o :
  array_index k = Some n → k ∉ o.*1 → canonical o →
  canonical (insert_index n k v o).
Proof.
  intros Hk. unfold canonical.
  induction o as [|[k' v'] o IH]; csimpl; intros Hnotin [Hnd Hss].
  - split; [apply NoDup_singleton|]. repeat constructor.
  - apply NoDup_cons in Hnd as [Hk' Hnd].
    apply StronglySorted_cons in Hss as [Hall Hss].
    rewrite Forall_forall in Hall.
    assert (Hne : k ≠ k') by set_solver.
    assert (Hnotin' : k ∉ o.*1) by set_solver.
    assert (Hfront : ∀ n', array_index k' = Some n' → ¬ (n' < n)%N →
              Forall (key_before k) (k' :: o.*1)).
    { intros n' Hn' Hge.
      assert (n ≠ n') by (intros ->; by eapply Hne, array_index_inj).
      rewrite Forall_forall. intros x [->|Hx]%elem_of_cons.
      - unfold key_before. rewrite Hk, Hn'. lia.
      - specialize (Hall x Hx). unfold key_before in *.
        rewrite Hk. rewrite Hn' in Hall.
        destruct (array_index x); [lia|done]. }
    destruct (array_index k') as [n'|] eqn:Hn'; [destruct (n' <? n)%N eqn:Hlt|]; csimpl.
    + apply N.ltb_lt in Hlt.
      destruct (IH Hnotin' (conj Hnd Hss)) as [Hnd' Hss'].
      split.
      * apply NoDup_cons. split; [|done].
        rewrite elem_of_insert_index_keys. set_solver.
      * apply StronglySorted_cons. split; [|done].
        rewrite Forall_forall. intros x [->|Hx]%elem_of_insert_index_keys.
        -- unfold key_before. by rewrite Hn', Hk.
        -- by apply Hall.
    + apply N.ltb_ge in Hlt.
      split.
      * apply NoDup_cons. split; [set_solver|]. apply NoDup_cons. done.
      * apply StronglySorted_cons. split; [apply (Hfront n' eq_refl); lia|].
        apply StronglySorted_cons. by rewrite Forall_forall.
    + split.
      * apply NoDup_cons. split; [set_solver|]. apply NoDup_cons. done.
      * apply StronglySorted_cons. split.
        -- rewrite Forall_forall. intros x [->|Hx]%elem_of_cons.
           ++ unfold key_before. by rewrite Hk, Hn'.
           ++ specialize (Hall x Hx). unfold key_before in *.
              rewrite Hk. rewrite Hn' in Hall. by destruct (array_index x).
        -- apply StronglySorted_cons. by rewrite Forall_forall.
Qed.

Lemma append_canonical k v o :
  array_index k = None → k ∉ o.*1 → canonical o → canonical (o ++ [(k, v)]).
Proof.
  intros Hk Hnotin [Hnd Hss]. unfold canonical. rewrite fmap_app. simpl. split.
  - apply NoDup_app. split; [done|]. split; [|apply NoDup_singleton].
    intros x Hx ->%list_elem_of_singleton. done.
  - apply StronglySorted_app_2; [|done|repeat constructor].
    intros x1 x2 _ ->%list_elem_of_singleton.
    unfold key_before. rewrite Hk. by destruct (array_index x1).
Qed.

Lemma obj_define_canonical k v o : canonical o → canonical (obj_define k v o).
Proof.
  intros Hc. unfold obj_define. destruct (has_key k o) eqn:Hhas.
  - unfold canonical. by rewrite replace_value_keys.
  - apply has_key_false in Hhas.
    destruct (array_index k) as [n|] eqn:Hk.
    + by apply insert_index_canonical.
    + by apply append_canonical.
Qed.

Lemma obj_assign_canonical k v o : canonical o → canonical (obj_assign k v o).
Proof.
  intros Hc. unfold obj_assign. case_decide; [done|]. by apply obj_define_canonical.
Qed.

(** Defining a key that the object lists last, on the entries before it,
    puts it last. *)
Lemma obj_define_last k v o :
  canonical (o ++ [(k, v)]) → obj_define k v o = o ++ [(k, v)].
Proof.
  intros [Hnd Hss]. rewrite fmap_app in Hnd, Hss. simpl in *.
  apply NoDup_app in Hnd as (_ & Hdisj & _).
  apply StronglySorted_app in Hss as (Hbefore & _ & _).
  assert (Hnotin : k ∉ o.*1).
  { intros Hin. apply (Hdisj k Hin). set_solver. }
  unfold obj_define. apply has_key_false in Hnotin as ->.
  destruct (array_index k) as [n|] eqn:Hk; [|done].
  apply insert_index_append. intros k' Hk'.
  specialize (Hbefore k' k Hk'). unfold key_before in Hbefore.
  rewrite Hk in Hbefore.
  destruct (array_index k') as [n'|]; [|exfalso; apply Hbefore; set_solver].
  exists n'. split; [done|]. apply Hbefore. set_solver.
Qed.

End Objects.

Lemma canonical_keys {A B} (o1 : jsobj A) (o2 : jsobj B) :
  o1.*1 = o2.*1 → canonical o1 → canonical o2.
Proof. unfold canonical. by intros ->. Qed.

Lemma elem_of_replace_value {A} k (v : A) (o : jsobj A) m :
  m ∈ replace_value k v o → m = (k, v) ∨ m ∈ o.
Proof.
  induction o as [|[k' v'] o IH]; csimpl; [by intros ?%elem_of_nil|].
  case_decide as Hk; subst; rewrite !elem_of_cons; [naive_solver|].
  intros [->|Hm]; [by right; left|]. destruct (IH Hm); auto.
Qed.

Lemma elem_of_insert_index {A} n k (v : A) (o : jsobj A) m :
  m ∈ insert_index n k v o → m = (k, v) ∨ m ∈ o.
Proof.
  induction o as [|[k' v'] o IH]; csimpl.
  - intros ->%list_elem_of_singleton. by left.
  - destruct (array_index k') as [n'|]; [destruct (n' <? n)%N|];
      rewrite !elem_of_cons; naive_solver.
Qed.

Lemma elem_of_obj_assign {A} k (v : A) (o : jsobj A) m :
  m ∈ obj_assign k v o → m = (k, v) ∨ m ∈ o.
Proof.
  unfold obj_assign, obj_define. case_decide; [by right|].
  destruct (has_key k o); [apply elem_of_replace_value|].
  destruct (array_index k); [apply elem_of_insert_index|].
  rewrite elem_of_app, list_elem_of_singleton. naive_solver.
Qed.

(** Parsing the text of a listed object gives the object back. *)
Lemma parse_members_canonical {A B} (f : A → B) (o : jsobj A) :
  canonical o →
  foldl (λ acc m, obj_define m.1 (f m.2) acc) [] o = (λ m, (m.1, f m.2)) <$> o.
Proof.
  induction o as [|m o IH] using rev_ind; intros Hc; [done|].
  rewrite foldl_snoc, fmap_snoc.
  assert (Hc' : canonical o).
  { destruct Hc as [Hnd Hss]. rewrite fmap_app in Hnd, Hss. split.
    - by apply NoDup_app in Hnd as (? & _ & _).
    - by apply StronglySorted_app_1_l in Hss. }
  rewrite (IH Hc'). apply obj_define_last.
  apply (canonical_keys (o ++ [m])); [|done].
  rewrite !fmap_app, <- list_fmap_compose. done.
Qed.

(** ** Export *)

Lemma exportData_from_canonical gs : ∀ o : jsobj (list Z),
  canonical o →
  canonical (foldl (λ o g, obj_assign (name g) (sorted_indices (indices g)) o) o gs).
Proof.
  induction gs as [|g gs IH]; intros o Hc; simpl; [done|].
  apply IH. by apply obj_assign_canonical.
Qed.

Lemma exportData_canonical gs : canonical (exportData gs).
Proof.
  apply exportData_from_canonical. split; [apply NoDup_nil_2|constructor].
Qed.

Lemma exportData_from_values gs : ∀ o : jsobj (list Z),
  (∀ m, m ∈ o → ∃ g, m = name_and_array g) →
  ∀ m, m ∈ foldl (λ o g, obj_assign (name g) (sorted_indices (indices g)) o) o gs →
       ∃ g, m = name_and_array g.
Proof.
  induction gs as [|g gs IH]; intros o Ho m; simpl; [apply Ho|].
  apply IH. intros m' [->|Hm']%elem_of_obj_assign; [by exists g|by apply Ho].
Qed.

(** Every exported entry is the name and the sorted indices of a group. *)
Lemma exportData_values gs m : m ∈ exportData gs → ∃ g, m = name_and_array g.
Proof.
  apply exportData_from_values. by intros ? ?%elem_of_nil.
Qed.

Lemma list_to_set_sorted_indices (s : gset Z) : list_to_set (sorted_indices s) = s.
Proof.
  apply set_eq. intros x. unfold sorted_indices.
  rewrite elem_of_list_to_set, merge_sort_Permutation. apply elem_of_elements.
Qed.

Lemma JSON_parse_handleExport gs :
  JSON_parse (handleExport gs) = JObj ((λ m, (m.1, JArr m.2)) <$> exportData gs).
Proof.
  unfold JSON_parse, handleExport, JSON_stringify. f_equal.
  apply (parse_members_canonical JArr), exportData_canonical.
Qed.

(** ** Import *)

Section ImportJSON.

Variable genId : nat → string.
Variable rnd : nat → nat.

Lemma getRandomColor_palette r : getRandomColor r ∈ palette.
Proof.
  unfold getRandomColor.
  assert (Hlt : r mod length palette < length palette) by (apply Nat.mod_upper_bound; done).
  apply lookup_lt_is_Some in Hlt as [c Hc]. rewrite Hc. simpl.
  by eapply list_elem_of_lookup_2.
Qed.

Lemma import_entries_groups entries : ∀ idx acc,
  (λ g, (name g, indices g)) <$> newGroups (import_entries genId rnd idx entries acc)
  = ((λ g, (name g, indices g)) <$> newGroups acc)
    ++ ((λ kl, (kl.1, list_to_set kl.2)) <$> omap array_member entries).
Proof.
  induction entries as [|[k j] entries IH]; intros idx acc; simpl.
  - by rewrite app_nil_r.
  - rewrite IH. unfold import_entry, array_member. simpl.
    destruct j; simpl; try done.
    rewrite fmap_app, <- app_assoc. done.
Qed.

Lemma import_entries_firstId_later entries : ∀ idx acc,
  idx ≠ 0 → firstId (import_entries genId rnd idx entries acc) = firstId acc.
Proof.
  induction entries as [|e entries IH]; intros idx acc Hidx; simpl; [done|].
  rewrite IH by lia. unfold import_entry.
  rewrite decide_False by done. by destruct (e.2).
Qed.

Lemma import_entries_firstId e entries acc :
  firstId (import_entries genId rnd 0 (e :: entries) acc) = genId 0.
Proof.
  simpl. rewrite import_entries_firstId_later by lia.
  unfold import_entry. simpl. by destruct (e.2).
Qed.

(** Where the groups of the loop come from: each new group stems from an
    array-valued entry and carries the id generated in that iteration. *)
Lemma import_entries_origin entries : ∀ idx acc g,
  g ∈ newGroups (import_entries genId rnd idx entries acc) →
  g ∈ newGroups acc
  ∨ ∃ d k elems, entries !! d = Some (k, JArr elems)
      ∧ id g = genId (idx + d) ∧ name g = k ∧ indices g = list_to_set elems
      ∧ visible g = true ∧ color g ∈ palette.
Proof.
  induction entries as [|[k j] entries IH]; intros idx acc g Hg; simpl in *; [by left|].
  apply IH in Hg as [Hg|(d & k' & elems & Hd & Hid & Hrest)].
  - unfold import_entry in Hg. simpl in Hg.
    destruct j; simpl in Hg; try (by left).
    apply elem_of_app in Hg as [Hg| ->%list_elem_of_singleton]; [by left|].
    right. exists 0, k, elems. simpl. rewrite Nat.add_0_r.
    repeat split; try done. apply getRandomColor_palette.
  - right. exists (S d), k', elems. simpl.
    replace (idx + S d) with (S idx + d) by lia. done.
Qed.

(** The object branch of [handleImportJSON]. *)
Lemma handleImportJSON_object members st :
  let kept := omap array_member members in
  match kept with
  | [] =>
      handleImportJSON genId rnd (JObj members) st
      = (st, Some "No valid groups found in JSON."%string)
  | _ =>
      ∃ gs', handleImportJSON genId rnd (JObj members) st
             = ({| groups := gs';
                   activeGroupId :=
                     firstId (import_entries genId rnd 0 members
                                {| newGroups := []; firstId := ""; draws := 0 |}) |},
                None)
             ∧ (λ g, (name g, indices g)) <$> gs'
               = (λ kl, (kl.1, list_to_set kl.2)) <$> kept
  end.
Proof.
  intros kept. unfold handleImportJSON.
  pose proof (import_entries_groups members 0
                {| newGroups := []; firstId := ""; draws := 0 |}) as Hg.
  simpl in Hg. fold kept in Hg.
  assert (Hlen : length (newGroups (import_entries genId rnd 0 members
             {| newGroups := []; firstId := ""; draws := 0 |})) = length kept).
  { apply (f_equal length) in Hg. by rewrite !length_fmap in Hg. }
  destruct kept as [|m kept'] eqn:Hk.
  - rewrite bool_decide_eq_false_2 by (rewrite Hlen; simpl; lia). done.
  - rewrite bool_decide_eq_true_2 by (rewrite Hlen; simpl; lia).
    eexists. split; [reflexivity|]. exact Hg.
Qed.

Lemma import_entries_head entries : ∀ idx acc g gs,
  newGroups acc = g :: gs →
  ∃ gs', newGroups (import_entries genId rnd idx entries acc) = g :: gs'.
Proof.
  induction entries as [|e entries IH]; intros idx acc g gs Hacc; simpl.
  - by exists gs.
  - unfold import_entry. destruct (e.2); simpl;
      try (by apply (IH _ _ g gs)).
    eapply IH. simpl. rewrite Hacc. reflexivity.
Qed.

(** When the first key holds an array, its group heads the new list and is
    the active one. *)
Lemma handleImportJSON_first_array k elems rest st :
  ∃ g gs',
    handleImportJSON genId rnd (JObj ((k, JArr elems) :: rest)) st
    = ({| groups := g :: gs'; activeGroupId := id g |}, None)
    ∧ id g = genId 0 ∧ name g = k ∧ indices g = list_to_set elems
    ∧ visible g = true ∧ color g ∈ palette.
Proof.
  unfold handleImportJSON.
  rewrite import_entries_firstId. simpl.
  unfold import_entry. simpl.
  match goal with |- context [import_entries _ _ 1 rest ?a] =>
    destruct (import_entries_head rest 1 a _ [] eq_refl) as [gs' Hgs] end.
  rewrite Hgs. simpl.
  exists (mkGroup (genId 0) k (list_to_set elems) true (getRandomColor (rnd 0))), gs'.
  split; [reflexivity|]. simpl.
  repeat split. apply getRandomColor_palette.
Qed.

(** When the first key holds no array but a later one does, the active id
    is the id generated for the skipped first key: no group of the new list
    carries it, unless [generateId] repeated itself. *)
Lemma handleImportJSON_first_not_array k j rest st :
  array_member (k, j) = None → omap array_member rest ≠ [] →
  (∀ d, d ≠ 0 → genId d ≠ genId 0) →
  ∃ gs', handleImportJSON genId rnd (JObj ((k, j) :: rest)) st
         = ({| groups := gs'; activeGroupId := genId 0 |}, None)
         ∧ gs' ≠ []
         ∧ ∀ g, g ∈ gs' → id g ≠ genId 0.
Proof.
  intros Hj Hrest Hfresh.
  pose proof (handleImportJSON_object ((k, j) :: rest) st) as H.
  cbv zeta in H.
  assert (Hom : omap array_member ((k, j) :: rest) = omap array_member rest)
    by (csimpl; by rewrite Hj).
  rewrite Hom in H.
  destruct (omap array_member rest) as [|m kept] eqn:Hk; [done|].
  destruct H as (gs' & Heq & Hnames).
  rewrite import_entries_firstId in Heq.
  exists gs'. split; [exact Heq|]. split.
  { intros ->. done. }
  intros g Hg.
  assert (Hgs : gs' = newGroups (import_entries genId rnd 0 ((k, j) :: rest)
                          {| newGroups := []; firstId := ""; draws := 0 |})).
  { unfold handleImportJSON in Heq.
    case_bool_decide; [|done]. by injection Heq as <-. }
  rewrite Hgs in Hg. apply import_entries_origin in Hg as [Hg|Hg].
  - by apply elem_of_nil in Hg.
  - destruct Hg as (d & k' & elems & Hd & Hid & _).
    rewrite Hid. simpl. apply Hfresh.
    destruct d as [|d]; [|lia]. simpl in Hd. injection Hd as -> ->. done.
Qed.

End ImportJSON.

(** ** Import of an exported file *)

Lemma omap_array_member_arrays (o : jsobj (list Z)) :
  omap array_member ((λ m, (m.1, JArr m.2)) <$> o) = o.
Proof.
  induction o as [|[k l] o IH]; csimpl; [done|]. by rewrite IH.
Qed.

(** Groups with distinct names that are neither array indices nor
    [__proto__] are exported one entry per group, in list order. *)
Lemma exportData_plain gs :
  NoDup (name <$> gs) →
  (∀ g, g ∈ gs → array_index (name g) = None ∧ name g ≠ "__proto__"%string) →
  exportData gs = name_and_array <$> gs.
Proof.
  unfold exportData.
  change (name_and_array <$> gs) with ([] ++ (name_and_array <$> gs)).
  assert (Hdisj : ∀ g, g ∈ gs → name g ∉ ([] : jsobj (list Z)).*1)
    by (intros g _ ?%elem_of_nil; done).
  revert Hdisj. generalize ([] : jsobj (list Z)).
  induction gs as [|g gs IH]; intros o Hdisj Hnd Hplain; csimpl.
  - by rewrite app_nil_r.
  - apply NoDup_cons in Hnd as [Hg Hnd].
    destruct (Hplain g) as [Hidx Hproto]; [set_solver|].
    assert (Hnew : obj_assign (name g) (sorted_indices (indices g)) o
                   = o ++ [name_and_array g]).
    { unfold obj_assign, obj_define. rewrite decide_False by done.
      rewrite (proj2 (has_key_false (name g) o)) by (apply Hdisj; set_solver).
      by rewrite Hidx. }
    rewrite Hnew, IH; [by rewrite <- app_assoc| |done|].
    + intros g' Hg'. rewrite fmap_app, elem_of_app. csimpl.
      intros [Hin|Hin%list_elem_of_singleton].
      * apply (Hdisj g'); [set_solver|done].
      * apply Hg. rewrite <- Hin. by apply list_elem_of_fmap_2.
    + intros g' Hg'. apply Hplain. set_solver.
Qed.

Lemma obj_assign_nonempty {A} k (v : A) (o : jsobj A) :
  o ≠ [] ∨ k ≠ "__proto__"%string → obj_assign k v o ≠ [].
Proof.
  unfold obj_assign, obj_define. case_decide as Hk.
  - intros [Ho|Hne]; done.
  - intros _. destruct (has_key k o) eqn:Hhas.
    + apply has_key_true in Hhas. intros Hnil.
      apply (f_equal (fmap fst)) in Hnil. rewrite replace_value_keys in Hnil.
      rewrite Hnil in Hhas. by apply elem_of_nil in Hhas.
    + destruct (array_index k) as [n|].
      * destruct o as [|[k' v'] o]; simpl; [done|].
        destruct (array_index k') as [n'|]; [destruct (n' <? n)%N|]; done.
      * by destruct o.
Qed.

(** X30.  The exported object has no key exactly when every group is named
    [__proto__] (in particular when there is no group). *)
Lemma exportData_empty_iff gs :
  exportData gs = [] ↔ ∀ g, g ∈ gs → name g = "__proto__"%string.
Proof.
  unfold exportData.
  assert (H : ∀ o : jsobj (list Z),
            foldl (λ o g, obj_assign (name g) (sorted_indices (indices g)) o) o gs = []
            ↔ o = [] ∧ ∀ g, g ∈ gs → name g = "__proto__"%string).
  { induction gs as [|g gs IH]; intros o; simpl.
    - split; [intros ->; split; [done|by intros ? ?%elem_of_nil]|by intros [-> _]].
    - rewrite IH. split.
      + intros [Ho Hall].
        destruct (decide (name g = "__proto__"%string)) as [Hg|Hg].
        * unfold obj_assign in Ho. rewrite decide_True in Ho by done.
          split; [done|]. intros g' [->|Hg']%elem_of_cons; auto.
        * exfalso. revert Ho. apply obj_assign_nonempty. by right.
      + intros [-> Hall]. split; [|intros g' Hg'; apply Hall; set_solver].
        unfold obj_assign. rewrite decide_True; [done|]. apply Hall. set_solver. }
  rewrite H. naive_solver.
Qed.

(** Exporting a group list to the object-of-arrays form and importing that
    output replaces the groups by groups whose names and ascending index
    arrays are those of the exported object, key by key, as soon as that
    object has at least one key; an export without keys is rejected by the
    import with an alert and the state stays as it was. *)
Theorem export_import_roundtrip (genId : nat → string) (rnd : nat → nat)
    (gs : list SelectionGroup) (st : AppState) :
  match exportData gs with
  | [] =>
      handleImportJSON genId rnd (JSON_parse (handleExport gs)) st
      = (st, Some "No valid groups found in JSON."%string)
  | _ =>
      ∃ st', handleImportJSON genId rnd (JSON_parse (handleExport gs)) st = (st', None)
             ∧ name_and_array <$> groups st' = exportData gs
  end.
Proof.
  rewrite JSON_parse_handleExport.
  pose proof (handleImportJSON_object genId rnd
                ((λ m, (m.1, JArr m.2)) <$> exportData gs) st) as H.
  cbv zeta in H. rewrite omap_array_member_arrays in H.
  pose proof (exportData_values gs) as Hvals.
  destruct (exportData gs) as [|m o] eqn:Ho; [exact H|].
  destruct H as (gs' & Heq & Hnames).
  eexists. split; [exact Heq|]. simpl.
  transitivity ((λ p : string * gset Z, (p.1, sorted_indices p.2))
                  <$> ((λ g, (name g, indices g)) <$> gs')).
  { rewrite <- list_fmap_compose. done. }
  rewrite Hnames, <- list_fmap_compose.
  rewrite <- (list_fmap_id (m :: o)) at 2.
  apply list_fmap_ext. intros i kl Hkl. simpl.
  destruct (Hvals kl) as [g ->]; [by eapply list_elem_of_lookup_2|].
  unfold name_and_array. simpl. by rewrite list_to_set_sorted_indices.
Qed.

(** A single group named [__proto__]: the assignment
    [exportData["__proto__"] = [1, 2]] creates no own property, the exported
    object is [{}], and the import of that file shows the alert and keeps
    the group. *)
Example export_import_rejected :
  let gs := [mkGroup "1" "__proto__" {[1%Z; 2%Z]} true "#bb86fc"] in
  let st := mkApp gs "1" in
  let res := handleImportJSON (λ n, pretty n) (λ n, n)
               (JSON_parse (handleExport gs)) st in
  handleExport gs = []
  ∧ res = (st, Some "No valid groups found in JSON."%string).
Proof.
  intros gs st res.
  assert (He : exportData gs = []) by reflexivity.
  split; [exact He|].
  unfold res, handleExport, JSON_stringify. rewrite He. reflexivity.
Qed.

(** C8, at the failing input.  Two groups: [Lips] with the index 3 and
    [__proto__] with the indices 1 and 2.  The assignment
    [exportData["__proto__"] = [1, 2]] sets the prototype of the export
    object and creates no own property, so the exported file is
    [{"Lips": [3]}]: the group [__proto__] is not exported although the
    export format is one key per group name.  The import of that file
    succeeds and installs the single group [Lips]; the names and index
    arrays after the round trip are not those of the groups exported. *)
Theorem export_import_loses_proto_group :
  let gs := [mkGroup "1" "Lips" {[3%Z]} true "#bb86fc";
             mkGroup "2" "__proto__" {[1%Z; 2%Z]} true "#03dac6"] in
  let st := mkApp gs "1" in
  let res := handleImportJSON (λ n, "id" +:+ pretty n) (λ n, n)
               (JSON_parse (handleExport gs)) st in
  name_and_array <$> gs
  = [("Lips"%string, [3%Z]); ("__proto__"%string, [1%Z; 2%Z])]
  ∧ handleExport gs = [("Lips"%string, [3%Z])]
  ∧ res.2 = None
  ∧ name_and_array <$> groups res.1 = [("Lips"%string, [3%Z])]
  ∧ name_and_array <$> groups res.1 ≠ name_and_array <$> gs.
Proof.
  intros gs st res.
  assert (Hgs : name_and_array <$> gs
                = [("Lips"%string, [3%Z]); ("__proto__"%string, [1%Z; 2%Z])])
    by reflexivity.
  assert (Hres : name_and_array <$> groups res.1 = [("Lips"%string, [3%Z])])
    by reflexivity.
  split; [exact Hgs|]. split; [reflexivity|]. split; [reflexivity|].
  split; [exact Hres|]. rewrite Hres, Hgs. discriminate.
Qed.

(** C4, at the failing input.  Importing [{"a": 1, "b": [1, 2]}] replaces
    the groups by the single group [b], but the active id becomes the id
    generated for the skipped key [a]: no group of the new list has it. *)
Theorem handleImportJSON_first_key_skipped :
  let j := JObj [("a"%string, JNum 1); ("b"%string, JArr [1%Z; 2%Z])] in
  let st := mkApp [mkGroup "1" "Default" ∅ true "#bb86fc"] "1" in
  let st' := (handleImportJSON (λ n, "id" +:+ pretty n) (λ n, n) j st).1 in
  name <$> groups st' = ["b"%string]
  ∧ id <$> groups st' = ["id1"%string]
  ∧ activeGroupId st' = "id0"%string
  ∧ ∀ g, g ∈ groups st' → id g ≠ activeGroupId st'.
Proof.
  intros j st st'.
  assert (Hids : id <$> groups st' = ["id1"%string]) by reflexivity.
  split; [reflexivity|]. split; [exact Hids|]. split; [reflexivity|].
  intros g Hg. apply (list_elem_of_fmap_2 id) in Hg. rewrite Hids in Hg.
  apply list_elem_of_singleton in Hg. rewrite Hg. discriminate.
Qed.

(** ** The scenarios of the specification, evaluated *)

(** [scale = 2, pan = (10, 10)]: [screenToWorld(30, 30) = (10, 10)] and back. *)
Example screenToWorld_scenario :
  let v := mkView 2 (mkPoint2D 10 10) in
  screenToWorld v 30 30 = mkPoint2D 10 10
  ∧ worldToScreen v (mkPoint2D 10 10) = mkPoint2D 30 30.
Proof.
  unfold screenToWorld, worldToScreen; simpl. split; f_equal; lra.
Qed.

(** Five points, a brush of world radius 0.5 centred on the second one: Add
    selects exactly index 1 and the Subtract that follows empties the group. *)
Example brush_scenario :
  let lms := [mkPoint 0 0 0; mkPoint 1 0 0; mkPoint 2 0 0; mkPoint 0 1 0; mkPoint 0 0 1] in
  let img := mkImage 1 1 in
  let v := mkView 1 (mkPoint2D 0 0) in
  let st := mkApp [mkGroup "1" "Default" ∅ true "#bb86fc"] "1" in
  let st1 := brush (Some lms) (Some img) 0.5 Add v 1 0 st in
  let st2 := brush (Some lms) (Some img) 0.5 Subtract v 1 0 st1 in
  indicesToUpdate img lms 0.5 v 1 0 = [1%Z]
  ∧ ∃ g1 g2, groups st1 !! 0 = Some g1 ∧ indices g1 = {[1%Z]}
             ∧ groups st2 !! 0 = Some g2 ∧ indices g2 = ∅.
Proof.
  intros lms img v st st1 st2.
  assert (Ht : indicesToUpdate img lms 0.5 v 1 0 = [1%Z]).
  { unfold indicesToUpdate, lms. cbn [brush_scan].
    unfold distSq2, screenToWorld; simpl.
    decide_reals. reflexivity. }
  split; [exact Ht|].
  destruct (brush_active_indices lms img 0.5 v 1 0 Add st 0 _ eq_refl eq_refl)
    as (g1 & Hk1 & Hid1 & Hi1).
  destruct (brush_active_indices lms img 0.5 v 1 0 Subtract st1 0 g1 Hk1)
    as (g2 & Hk2 & _ & Hi2).
  { unfold st1. rewrite brush_activeGroupId. exact Hid1. }
  rewrite Ht in Hi1, Hi2. simpl in Hi1.
  exists g1, g2. split; [exact Hk1|]. split; [set_solver|].
  split; [exact Hk2|]. set_solver.
Qed.

(** Equal distances: the first index wins. *)
Example nearest_tie : Float64.nearest Meshes.tie_points Meshes.origin = 0%Z.
Proof. vm_compute. reflexivity. Qed.

(** The symmetry map of [mirror_mesh]: the mirrored pairs 2, 3 and 4, 5 are
    exchanged, landmark 6 goes to the nearest landmark of the other side,
    the landmarks at the origin all go to the first of them, and the
    midline landmarks stay. *)
Example calculateSymmetryMap_mirror_mesh :
  ∃ m, Float64.calculateSymmetryMap Meshes.mirror_mesh = Some m
       ∧ (λ i, m !! i) <$> [0; 1; 2; 3; 4; 5; 6; 7; 10; 152; 168]
         = Some <$> [0; 1; 3; 2; 5; 4; 3; 0; 10; 152; 168]%Z.
Proof. eexists. split; [reflexivity|]. vm_compute. reflexivity. Qed.

(** Copy-specular with the symmetry map of [far_mesh] and landmark 2
    selected: the [-1] stored for landmark 2 joins the selection. *)
Example handleCopySpecular_far_mesh :
  let st := mkApp [mkGroup "1" "Default" {[2%Z]} true "#bb86fc"] "1" in
  ∃ m, Float64.calculateSymmetryMap Meshes.far_mesh = Some m
       ∧ indices <$> groups (Groups.handleCopySpecular m st) = [{[2%Z; (-1)%Z]}].
Proof. eexists. split; [reflexivity|]. vm_compute. reflexivity. Qed.

(** Which keys are array indices. *)
Example array_index_examples :
  array_index "12" = Some 12%N ∧ array_index "0" = Some 0%N
  ∧ array_index "012" = None ∧ array_index "" = None
  ∧ array_index "Lips" = None
  ∧ array_index "4294967294" = Some 4294967294%N
  ∧ array_index "4294967295" = None.
Proof. repeat split; reflexivity. Qed.

(** The exported object lists numeric names first and a repeated name once,
    with the indices of the later group. *)
Example exportData_key_order :
  exportData [mkGroup "a" "Lips" {[7%Z; 3%Z]} true "#bb86fc";
              mkGroup "b" "2" {[5%Z]} true "#03dac6";
              mkGroup "c" "1" ∅ false "#cf6679";
              mkGroup "d" "Lips" {[9%Z; 8%Z]} true "#ffb74d"]
  = [("1"%string, []); ("2"%string, [5%Z]); ("Lips"%string, [8%Z; 9%Z])].
Proof. reflexivity. Qed.


(** * Further properties of the code *)

Import Pointer Render Groups Actions Props.

(** ** utils/geometry *)




(** ** components/CanvasArea: view transform and pointer handling *)

(** X8.  [screenToWorld] and the transform [draw] installs are inverse to each
    other, in both directions, for every view with a non-zero scale. *)
Theorem screenToWorld_worldToScreen (v : ViewState) (sx sy : R) (w : Point2D) :
  scale v ≠ 0%R →
  worldToScreen v (screenToWorld v sx sy) = mkPoint2D sx sy
  ∧ screenToWorld v (x2 (worldToScreen v w)) (y2 (worldToScreen v w)) = w.
Proof.
  intros Hs. unfold worldToScreen, screenToWorld; simpl. split.
  - f_equal; field; exact Hs.
  - destruct w as [wx wy]; simpl. f_equal; field; exact Hs.
Qed.

Lemma screenToWorld_worldToScreen_witness :
  let v := mkView 2 (mkPoint2D 10 10) in
  worldToScreen v (screenToWorld v 30 30) = mkPoint2D 30 30
  ∧ screenToWorld v (x2 (worldToScreen v (mkPoint2D 10 10)))
      (y2 (worldToScreen v (mkPoint2D 10 10))) = mkPoint2D 10 10.
Proof.
  apply (screenToWorld_worldToScreen (mkView 2 (mkPoint2D 10 10)) 30 30 (mkPoint2D 10 10)).
  simpl. lra.
Defined.

Lemma handleWheel_scale_in_range (v : ViewState) (mouseX mouseY deltaY : R) :
  scale_in_range (handleWheel v mouseX mouseY deltaY).
Proof.
  unfold scale_in_range, handleWheel; simpl. unfold Rmax, Rmin.
  repeat destruct (Rle_dec _ _); lra.
Qed.

Lemma step_scale_in_range (pr : Props) (st : CanvasState) (ev : CanvasEvent) :
  scale_in_range (view st) → scale_in_range (view (step pr st ev).1).
Proof.
  intros Hs. destruct ev as [e|e| | |e deltaY|]; simpl.
  - unfold handlePointerDown.
    destruct (bool_decide _ || shiftKey e); [done|]. by case_bool_decide.
  - unfold handlePointerMove. by destruct (isPanning st).
  - done.
  - done.
  - apply handleWheel_scale_in_range.
  - unfold scale_in_range; simpl. lra.
Qed.

(** X9.  Whatever pointer, wheel and image-load events the canvas receives, in
    whatever order, the scale of its view stays within [0.1, 20]. *)
Theorem canvas_scale_always_in_range (pr : Props) (evs : list CanvasEvent) :
  scale_in_range (view (run pr initialCanvas evs)).
Proof.
  unfold run.
  assert (H : ∀ st, scale_in_range (view st) →
            scale_in_range (view (foldl (λ s ev, (step pr s ev).1) st evs))).
  { induction evs as [|ev evs IH]; intros st Hs; simpl; [done|].
    apply IH. by apply step_scale_in_range. }
  apply H. unfold scale_in_range; simpl. lra.
Qed.

(** X10.  A wheel step that is not clamped is undone by the opposite wheel step at
    the same cursor position: scale and pan return to their values. *)
Theorem handleWheel_opposite (v : ViewState) (mouseX mouseY deltaY : R) :
  scale_in_range v →
  (0.1 <= scale v * exp (- deltaY * 0.001) <= 20)%R →
  handleWheel (handleWheel v mouseX mouseY deltaY) mouseX mouseY (- deltaY) = v.
Proof.
  intros Hs Hf. unfold scale_in_range in Hs.
  set (f := exp (- deltaY * 0.001)) in *.
  assert (Hfpos : (0 < f)%R) by apply exp_pos.
  assert (Hg : (exp (- - deltaY * 0.001) * f = 1)%R).
  { unfold f. rewrite <- exp_plus.
    replace (- - deltaY * 0.001 + - deltaY * 0.001)%R with 0%R by lra. apply exp_0. }
  set (g := exp (- - deltaY * 0.001)) in *.
  assert (H1 : scale (handleWheel v mouseX mouseY deltaY) = (scale v * f)%R).
  { unfold handleWheel, zoomSensitivity; simpl. fold f. unfold Rmax, Rmin.
    repeat destruct (Rle_dec _ _); lra. }
  assert (H2 : (scale v * f * g = scale v)%R).
  { transitivity (scale v * (g * f))%R; [ring|]. rewrite Hg. ring. }
  destruct v as [s [panx pany]]; simpl in *.
  unfold handleWheel, zoomSensitivity; simpl. fold f g.
  assert (Hc1 : Rmax 0.1 (Rmin 20 (s * f)) = (s * f)%R).
  { unfold Rmax, Rmin. repeat destruct (Rle_dec _ _); lra. }
  rewrite Hc1.
  assert (Hc2 : Rmax 0.1 (Rmin 20 (s * f * g)) = s).
  { rewrite H2. unfold Rmax, Rmin. repeat destruct (Rle_dec _ _); lra. }
  rewrite Hc2.
  assert (Hs0 : s ≠ 0%R) by lra. assert (Hf0 : f ≠ 0%R) by lra.
  f_equal. f_equal; field; split; assumption.
Qed.

Lemma handleWheel_opposite_witness :
  handleWheel (handleWheel (mkView 1 (mkPoint2D 5 7)) 10 20 100) 10 20 (- 100)
  = mkView 1 (mkPoint2D 5 7).
Proof.
  apply (handleWheel_opposite (mkView 1 (mkPoint2D 5 7)) 10 20 100).
  - unfold scale_in_range; simpl. lra.
  - simpl.
    pose proof (exp_ineq1_le (- (100) * 0.001)) as Hlo.
    assert (Hneg : (- (100) * 0.001 < 0)%R) by lra.
    apply exp_increasing in Hneg. rewrite exp_0 in Hneg. lra.
Defined.

Lemma run_snoc (pr : Props) (st : CanvasState) (evs : list CanvasEvent) (ev : CanvasEvent) :
  run pr st (evs ++ [ev]) = (step pr (run pr st evs) ev).1.
Proof. unfold run. by rewrite foldl_snoc. Qed.

Lemma handlePointerDown_dragging (pr : Props) (st : CanvasState) (e : PointerEvent) :
  isDragging (handlePointerDown pr st e).1 = true →
  isDragging st = true ∨ left_press e.
Proof.
  unfold handlePointerDown, left_press.
  destruct (bool_decide (button e = 1%Z ∨ button e = 2%Z)); simpl; [by left|].
  destruct (shiftKey e); simpl; [by left|].
  destruct (bool_decide (button e = 0%Z)) eqn:H0; simpl; [|by left].
  apply bool_decide_eq_true in H0. by right.
Qed.

Lemma dragging_decomposition (pr : Props) (evs : list CanvasEvent) :
  isDragging (run pr initialCanvas evs) = true →
  ∃ evs1 e evs2, evs = evs1 ++ PointerDown e :: evs2
                 ∧ left_press e ∧ Forall keeps_gesture evs2.
Proof.
  induction evs as [|ev evs IH] using rev_ind; [done|].
  rewrite run_snoc. intros Hd.
  assert (Hkeep : isDragging (run pr initialCanvas evs) = true → keeps_gesture ev →
            ∃ evs1 e evs2, evs ++ [ev] = evs1 ++ PointerDown e :: evs2
                           ∧ left_press e ∧ Forall keeps_gesture evs2).
  { intros Hprev Hev. destruct (IH Hprev) as (evs1 & e & evs2 & -> & Hl & Hall).
    exists evs1, e, (evs2 ++ [ev]). rewrite <- app_assoc. simpl.
    split; [done|]. split; [done|]. apply Forall_app. split; [done|].
    by apply Forall_singleton. }
  destruct ev as [e|e| | |e deltaY|]; simpl in Hd.
  - apply handlePointerDown_dragging in Hd as [Hprev|Hl].
    + by apply Hkeep.
    + exists evs, e, []. done.
  - apply Hkeep; [|done]. unfold handlePointerMove in Hd.
    by destruct (isPanning _).
  - done.
  - done.
  - by apply Hkeep.
  - by apply Hkeep.
Qed.

(** X11.  The canvas calls [onSelectionChange] only inside a left-button gesture:
    whenever an event of a sequence from the initial state emits a
    selection, the sequence up to and including it contains a press of the
    left button without shift that no pointer-up or pointer-leave follows. *)
Theorem selection_only_in_left_gesture (pr : Props) (evs : list CanvasEvent)
    (ev : CanvasEvent) (out : list Z * Mode) :
  (step pr (run pr initialCanvas evs) ev).2 = Some out →
  ∃ evs1 e evs2, evs ++ [ev] = evs1 ++ PointerDown e :: evs2
                 ∧ left_press e ∧ Forall keeps_gesture evs2.
Proof.
  intros Hout. destruct ev as [e|e| | |e deltaY|]; simpl in Hout; try done.
  - exists evs, e, []. split; [done|]. split; [|done].
    unfold handlePointerDown, left_press in *.
    destruct (bool_decide (button e = 1%Z ∨ button e = 2%Z)); simpl in Hout; [done|].
    destruct (shiftKey e); simpl in Hout; [done|].
    destruct (bool_decide (button e = 0%Z)) eqn:H0; [|done].
    by apply bool_decide_eq_true in H0.
  - unfold handlePointerMove in Hout.
    destruct (isPanning _); simpl in Hout; [done|].
    destruct (isDragging (run pr initialCanvas evs)) eqn:Hd; [|done].
    destruct (dragging_decomposition pr evs Hd) as (evs1 & e0 & evs2 & -> & Hl & Hall).
    exists evs1, e0, (evs2 ++ [PointerMove e]). rewrite <- app_assoc. simpl.
    split; [done|]. split; [done|]. apply Forall_app. split; [done|].
    by apply Forall_singleton.
Qed.

Lemma selection_only_in_left_gesture_witness :
  let pr := mkProps (Some [mkPoint 0 0 0]) (Some (mkImage 1 1)) 10 Add in
  let e := mkEvent 0 0 0 0 0 false in
  ∃ evs1 e' evs2, [] ++ [PointerDown e] = evs1 ++ PointerDown e' :: evs2
                  ∧ left_press e' ∧ Forall keeps_gesture evs2.
Proof.
  intros pr e.
  apply (selection_only_in_left_gesture pr [] (PointerDown e) ([0%Z], Add)).
  unfold step, handlePointerDown, run; simpl.
  unfold select_at, performSelection, indicesToUpdate; simpl.
  rewrite (bool_decide_eq_true_2 (_ < _)%R); [reflexivity|].
  unfold distSq2, screenToWorld, event_x, event_y; simpl. lra.
Defined.

Lemma handlePointerMove_panning (pr : Props) (st : CanvasState) (e : PointerEvent) :
  isPanning st = true →
  let st' := (handlePointerMove pr st e).1 in
  (handlePointerMove pr st e).2 = None
  ∧ isPanning st' = true ∧ isDragging st' = isDragging st
  ∧ hoveredIndex st' = hoveredIndex st
  ∧ lastMousePos st' = mkPoint2D (event_x e) (event_y e)
  ∧ scale (view st') = scale (view st)
  ∧ x2 (pan (view st')) = (x2 (pan (view st)) + (event_x e - x2 (lastMousePos st)))%R
  ∧ y2 (pan (view st')) = (y2 (pan (view st)) + (event_y e - y2 (lastMousePos st)))%R.
Proof. intros Hp. unfold handlePointerMove. rewrite Hp. simpl. done. Qed.

(** X12.  A pan drag: over any number of pointer moves received while panning,
    nothing is selected, the hover state and the scale are untouched, and the
    view is translated by exactly the displacement of the pointer between the
    start of the drag and its last sample, so that every world point moves on
    the screen by that displacement. *)
Theorem pan_drag_translates (pr : Props) (st : CanvasState) (es : list PointerEvent) :
  isPanning st = true →
  let st' := run pr st (PointerMove <$> es) in
  let dx := (x2 (lastMousePos st') - x2 (lastMousePos st))%R in
  let dy := (y2 (lastMousePos st') - y2 (lastMousePos st))%R in
  emissions pr st (PointerMove <$> es) = []
  ∧ hoveredIndex st' = hoveredIndex st
  ∧ lastMousePos st' = match last es with
                       | Some e => mkPoint2D (event_x e) (event_y e)
                       | None => lastMousePos st
                       end
  ∧ scale (view st') = scale (view st)
  ∧ ∀ w, x2 (worldToScreen (view st') w) = (x2 (worldToScreen (view st) w) + dx)%R
         ∧ y2 (worldToScreen (view st') w) = (y2 (worldToScreen (view st) w) + dy)%R.
Proof.
  revert st. induction es as [|e es IH]; intros st Hp; cbv zeta.
  - simpl. repeat split; try done; lra.
  - destruct (handlePointerMove_panning pr st e Hp)
      as (Hnone & Hp' & _ & Hhov & Hlast & Hscale & Hx & Hy).
    specialize (IH _ Hp'). cbv zeta in IH.
    destruct IH as (Hem & Hhov' & Hlast' & Hscale' & Hw).
    change (PointerMove <$> e :: es) with (PointerMove e :: (PointerMove <$> es)).
    change (run pr st (PointerMove e :: (PointerMove <$> es)))
      with (run pr (handlePointerMove pr st e).1 (PointerMove <$> es)).
    set (st1 := (handlePointerMove pr st e).1) in *.
    set (st' := run pr st1 (PointerMove <$> es)) in *.
    split.
    { cbn [emissions step]. rewrite Hnone. exact Hem. }
    split; [by rewrite Hhov', Hhov|].
    split.
    { rewrite Hlast'. destruct es as [|e' es']; [simpl; exact Hlast|].
      rewrite last_cons_cons.
      destruct (last (e' :: es')) eqn:E; [done|]. by apply last_None in E. }
    split; [by rewrite Hscale', Hscale|].
    intros w. destruct (Hw w) as [Hwx Hwy]. rewrite Hwx, Hwy.
    unfold worldToScreen. rewrite Hscale, Hx, Hy, Hlast. simpl.
    split; lra.
Qed.

Lemma pan_drag_translates_witness :
  let pr := mkProps None None 10 Add in
  let st := (handlePointerDown pr initialCanvas (mkEvent 5 5 0 0 1 false)).1 in
  let es := [mkEvent 8 9 0 0 1 false; mkEvent 20 30 0 0 1 false] in
  let st' := run pr st (PointerMove <$> es) in
  let dx := (x2 (lastMousePos st') - x2 (lastMousePos st))%R in
  let dy := (y2 (lastMousePos st') - y2 (lastMousePos st))%R in
  emissions pr st (PointerMove <$> es) = []
  ∧ hoveredIndex st' = hoveredIndex st
  ∧ lastMousePos st' = match last es with
                       | Some e => mkPoint2D (event_x e) (event_y e)
                       | None => lastMousePos st
                       end
  ∧ scale (view st') = scale (view st)
  ∧ ∀ w, x2 (worldToScreen (view st') w) = (x2 (worldToScreen (view st) w) + dx)%R
         ∧ y2 (worldToScreen (view st') w) = (y2 (worldToScreen (view st) w) + dy)%R.
Proof.
  intros pr st es.
  apply (pan_drag_translates pr st es). reflexivity.
Defined.

(** ** Brush selection, continued *)

Lemma brush_scan_bounds (img : Image) (worldPos : Point2D) (worldRadiusSq : R)
    (ls : list Point3D) : ∀ i0 z,
  z ∈ brush_scan img worldPos worldRadiusSq i0 ls →
  (Z.of_nat i0 ≤ z < Z.of_nat (i0 + length ls))%Z.
Proof.
  intros i0 z (d & l & -> & Hd & _)%elem_of_brush_scan.
  apply lookup_lt_Some in Hd. lia.
Qed.

Lemma brush_scan_sorted (img : Image) (worldPos : Point2D) (worldRadiusSq : R)
    (ls : list Point3D) : ∀ i0,
  StronglySorted Z.lt (brush_scan img worldPos worldRadiusSq i0 ls).
Proof.
  induction ls as [|l ls IH]; intros i0; simpl; [constructor|].
  case_bool_decide; [|apply IH].
  apply StronglySorted_cons. split; [|apply IH].
  apply Forall_forall. intros z Hz%brush_scan_bounds. lia.
Qed.

(** X13.  The indices a brush application reports are positions of the point set,
    listed in strictly ascending order (so none is reported twice). *)
Theorem indicesToUpdate_ascending (img : Image) (landmarks : list Point3D)
    (brushSize : R) (v : ViewState) (screenX screenY : R) :
  StronglySorted Z.lt (indicesToUpdate img landmarks brushSize v screenX screenY)
  ∧ ∀ z, z ∈ indicesToUpdate img landmarks brushSize v screenX screenY →
         (0 ≤ z < Z.of_nat (length landmarks))%Z.
Proof.
  unfold indicesToUpdate. split; [apply brush_scan_sorted|].
  intros z Hz%brush_scan_bounds. simpl in Hz. lia.
Qed.

Lemma foldl_apply_index_add_noop idxs : ∀ (s : gset Z) (c : bool),
  (∀ z, z ∈ idxs → z ∈ s) → foldl (apply_index Add) (s, c) idxs = (s, c).
Proof.
  induction idxs as [|z idxs IH]; intros s c Hin; simpl; [done|].
  rewrite decide_False by (intros Hn; apply Hn, Hin; set_solver).
  apply IH. intros z' Hz'. apply Hin. set_solver.
Qed.

Lemma foldl_apply_index_subtract_noop idxs : ∀ (s : gset Z) (c : bool),
  (∀ z, z ∈ idxs → z ∉ s) → foldl (apply_index Subtract) (s, c) idxs = (s, c).
Proof.
  induction idxs as [|z idxs IH]; intros s c Hin; simpl; [done|].
  rewrite decide_False by (apply Hin; set_solver).
  apply IH. intros z' Hz'. apply Hin. set_solver.
Qed.

Lemma update_group_idempotent idxs mode (g : SelectionGroup) :
  update_group idxs mode (update_group idxs mode g) = update_group idxs mode g.
Proof.
  set (g' := update_group idxs mode g).
  assert (Hi : indices g' = match mode with
                            | Add => indices g ∪ list_to_set idxs
                            | Subtract => indices g ∖ list_to_set idxs
                            end).
  { unfold g'. rewrite update_group_indices.
    destruct mode; [apply foldl_apply_index_add|apply foldl_apply_index_subtract]. }
  unfold update_group at 1. destruct mode.
  - rewrite foldl_apply_index_add_noop; [done|]. rewrite Hi. set_solver.
  - rewrite foldl_apply_index_subtract_noop; [done|]. rewrite Hi. set_solver.
Qed.

(** X14.  Brushing twice in the same mode at the same place changes nothing more
    than brushing once: the second application returns the state as it is. *)
Theorem brush_idempotent (landmarks : option (list Point3D)) (imgElement : option Image)
    (brushSize : R) (mode : Mode) (v : ViewState) (screenX screenY : R) (st : AppState) :
  brush landmarks imgElement brushSize mode v screenX screenY
    (brush landmarks imgElement brushSize mode v screenX screenY st)
  = brush landmarks imgElement brushSize mode v screenX screenY st.
Proof.
  unfold brush.
  destruct (performSelection landmarks imgElement brushSize mode v screenX screenY)
    as [[idxs m]|]; [|done].
  simpl. f_equal. unfold handleSelectionChange.
  rewrite <- list_fmap_compose. apply list_fmap_ext. intros k g _. simpl.
  destruct (decide (id g ≠ activeGroupId st)) as [Hne|Heq].
  - by rewrite decide_True.
  - rewrite decide_False.
    + apply update_group_idempotent.
    + destruct (update_group_fields idxs m g) as [-> _]. done.
Qed.

(** ** The style table of [draw] *)

Lemma set_group_styles_lookup (scale : R) (activeId : string)
    (styles : gmap Z PointStyle) (g : SelectionGroup) (idx : Z) :
  set_group_styles scale activeId styles g !! idx
  = if decide (idx ∈ indices g) then Some (group_style scale activeId g)
    else styles !! idx.
Proof.
  unfold set_group_styles.
  assert (H : (idx ∈ indices g →
                 set_fold (λ idx m, <[idx := group_style scale activeId g]> m)
                   styles (indices g) !! idx = Some (group_style scale activeId g))
              ∧ (idx ∉ indices g →
                 set_fold (λ idx m, <[idx := group_style scale activeId g]> m)
                   styles (indices g) !! idx = styles !! idx)).
  { apply (set_fold_ind_L
      (λ (r : gmap Z PointStyle) (X : gset Z),
         (idx ∈ X → r !! idx = Some (group_style scale activeId g))
         ∧ (idx ∉ X → r !! idx = styles !! idx))).
    - split; [set_solver|done].
    - intros x X r Hx [IH1 IH2].
      destruct (decide (idx = x)) as [->|Hne].
      + rewrite lookup_insert_eq. split; [done|set_solver].
      + rewrite lookup_insert_ne by done. split.
        * intros Hin. apply IH1. set_solver.
        * intros Hin. apply IH2. set_solver. }
  destruct H as [H1 H2]. case_decide; auto.
Qed.

Lemma foldl_styles_none (scale : R) (activeId : string) (idx : Z)
    (gs : list SelectionGroup) : ∀ styles : gmap Z PointStyle,
  (∀ g, g ∈ gs → idx ∉ indices g) →
  foldl (set_group_styles scale activeId) styles gs !! idx = styles !! idx.
Proof.
  induction gs as [|g gs IH]; intros styles Hnone; simpl; [done|].
  rewrite IH by (intros g' Hg'; apply Hnone; set_solver).
  rewrite set_group_styles_lookup.
  by rewrite decide_False by (apply Hnone; set_solver).
Qed.

Lemma foldl_styles_last (scale : R) (activeId : string) (idx : Z)
    (l1 l2 : list SelectionGroup) (g : SelectionGroup) (styles : gmap Z PointStyle) :
  idx ∈ indices g → (∀ g', g' ∈ l2 → idx ∉ indices g') →
  foldl (set_group_styles scale activeId) styles (l1 ++ g :: l2) !! idx
  = Some (group_style scale activeId g).
Proof.
  intros Hin Hnone. rewrite foldl_app. simpl.
  rewrite foldl_styles_none by done.
  rewrite set_group_styles_lookup. by rewrite decide_True.
Qed.

Lemma find_group_Some (activeId : string) (gs : list SelectionGroup) (g : SelectionGroup) :
  find_group activeId gs = Some g → g ∈ gs ∧ id g = activeId.
Proof.
  induction gs as [|g0 gs IH]; simpl; [done|].
  case_decide as Hid.
  - intros [= ->]. split; [set_solver|done].
  - intros Hf. destruct (IH Hf). split; [set_solver|done].
Qed.

Lemma find_group_NoDup (activeId : string) (gs : list SelectionGroup) (g : SelectionGroup) :
  NoDup (id <$> gs) → g ∈ gs → id g = activeId → find_group activeId gs = Some g.
Proof.
  induction gs as [|g0 gs IH]; csimpl; intros Hnd Hg Hid; [by apply elem_of_nil in Hg|].
  apply NoDup_cons in Hnd as [Hg0 Hnd].
  apply elem_of_cons in Hg as [->|Hg].
  - by rewrite decide_True.
  - rewrite decide_False; [by apply IH|].
    intros Heq. apply Hg0. rewrite Heq, <- Hid. by apply list_elem_of_fmap_2.
Qed.

(** X15.  The active group wins: when it is visible, each of its indices gets
    the active group's color and the stroke ['#fff'], whatever other groups
    contain the index. *)
Theorem pointStyles_active_wins (gs : list SelectionGroup) (activeId : string)
    (scale : R) (g : SelectionGroup) (idx : Z) :
  find_group activeId gs = Some g → visible g = true → idx ∈ indices g →
  pointStyles gs activeId scale !! idx
  = Some (mkStyle (color g) (4 / scale) "#fff").
Proof.
  intros Hf Hv Hin. unfold pointStyles, visibleGroups. rewrite Hf, Hv.
  rewrite (foldl_styles_last _ _ idx _ [] g) by (done || by intros ? ?%elem_of_nil).
  unfold group_style. destruct (find_group_Some _ _ _ Hf) as [_ Hid].
  by rewrite decide_True.
Qed.

Lemma pointStyles_active_wins_witness :
  let g1 := mkGroup "1" "Default" {[3%Z]} true "#bb86fc" in
  let g2 := mkGroup "2" "Lips" {[3%Z; 4%Z]} true "#03dac6" in
  pointStyles [g1; g2] "1" 2 !! 3%Z = Some (mkStyle "#bb86fc" (4 / 2) "#fff").
Proof.
  intros g1 g2.
  apply (pointStyles_active_wins [g1; g2] "1" 2 g1 3%Z); [reflexivity..|].
  simpl. set_solver.
Defined.

(** X16.  Among the other groups the last one in list order wins: an index that
    the visible active group does not hold gets the color of the last
    visible non-active group that holds it, with the half-transparent stroke. *)
Theorem pointStyles_last_group_wins (l1 l2 : list SelectionGroup) (activeId : string)
    (scale : R) (g : SelectionGroup) (idx : Z) :
  visible g = true → id g ≠ activeId → idx ∈ indices g →
  (∀ g', g' ∈ l2 → visible g' = true → id g' ≠ activeId → idx ∉ indices g') →
  (∀ ga, find_group activeId (l1 ++ g :: l2) = Some ga → visible ga = true →
         idx ∉ indices ga) →
  pointStyles (l1 ++ g :: l2) activeId scale !! idx
  = Some (mkStyle (color g) (4 / scale) "rgba(255,255,255,0.5)").
Proof.
  intros Hv Hid Hin Hlater Hactive. unfold pointStyles, visibleGroups.
  rewrite filter_app, filter_cons_True by done.
  rewrite <- app_assoc. simpl.
  rewrite foldl_styles_last; [|done|].
  - unfold group_style. by rewrite decide_False.
  - intros g' [Hg'|Hg']%elem_of_app.
    + apply list_elem_of_filter in Hg' as [[Hv' Hid'] Hg']. by apply Hlater.
    + destruct (find_group activeId (l1 ++ g :: l2)) as [ga|] eqn:Hf;
        [|by apply elem_of_nil in Hg'].
      destruct (visible ga) eqn:Hva; [|by apply elem_of_nil in Hg'].
      apply list_elem_of_singleton in Hg' as ->. by apply Hactive.
Qed.

Lemma pointStyles_last_group_wins_witness :
  let g1 := mkGroup "1" "Default" {[7%Z]} true "#bb86fc" in
  let g2 := mkGroup "2" "Lips" {[3%Z; 4%Z]} true "#03dac6" in
  let g3 := mkGroup "3" "Brow" {[3%Z]} true "#cf6679" in
  let g4 := mkGroup "4" "Chin" {[3%Z]} false "#ffb74d" in
  pointStyles ([g1; g2] ++ g3 :: [g4]) "1" 2 !! 3%Z
  = Some (mkStyle "#cf6679" (4 / 2) "rgba(255,255,255,0.5)").
Proof.
  intros g1 g2 g3 g4.
  apply (pointStyles_last_group_wins [g1; g2] [g4] "1" 2 g3 3%Z).
  - reflexivity.
  - discriminate.
  - simpl. set_solver.
  - intros g' ->%list_elem_of_singleton. discriminate.
  - intros ga [= <-] _. simpl. set_solver.
Defined.

(** X17.  Hidden groups never show, visible ones always do.  A landmark that only
    hidden groups hold is painted as unselected (radius [2 / scale], the
    fill of the dot-color preference, half line width); with pairwise
    distinct group ids, a landmark that some visible group holds is painted
    with the selected radius [4 / scale]. *)
Theorem draw_landmark_visibility (img : Image) (gs : list SelectionGroup)
    (activeId : string) (scale : R) (dotColor : DotColor) (index : nat) (l : Point3D) :
  let dot := draw_landmark img scale (pointStyles gs activeId scale) dotColor index l in
  ((∀ g, g ∈ gs → Z.of_nat index ∈ indices g → visible g = false) →
     dot_radius dot = (2 / scale)%R
     ∧ dot_lineWidth dot = (1 / scale * 0.5)%R
     ∧ dot_fill dot = match dotColor with
                      | White => "rgba(255, 255, 255, 0.5)"%string
                      | Black => "rgba(0, 0, 0, 0.5)"%string
                      end)
  ∧ (NoDup (id <$> gs) →
     (∃ g, g ∈ gs ∧ visible g = true ∧ Z.of_nat index ∈ indices g) →
     dot_radius dot = (4 / scale)%R ∧ dot_lineWidth dot = (1 / scale)%R).
Proof.
  intros dot. split.
  - intros Hhidden.
    assert (Hnone : pointStyles gs activeId scale !! Z.of_nat index = None).
    { unfold pointStyles. rewrite foldl_styles_none; [apply lookup_empty|].
      intros g Hg Hin. unfold visibleGroups in Hg.
      apply elem_of_app in Hg as [Hg|Hg].
      - apply list_elem_of_filter in Hg as [[Hv _] Hg].
        rewrite (Hhidden g Hg Hin) in Hv. done.
      - destruct (find_group activeId gs) as [ga|] eqn:Hf;
          [|by apply elem_of_nil in Hg].
        destruct (visible ga) eqn:Hva; [|by apply elem_of_nil in Hg].
        apply list_elem_of_singleton in Hg as ->.
        destruct (find_group_Some _ _ _ Hf) as [Hga _].
        rewrite (Hhidden ga Hga Hin) in Hva. done. }
    unfold dot, draw_landmark. rewrite Hnone. done.
  - intros Hnd (g & Hg & Hv & Hin).
    assert (Hsome : ∃ s, pointStyles gs activeId scale !! Z.of_nat index = Some s
                         ∧ style_radius s = (4 / scale)%R).
    { assert (Hvis : g ∈ visibleGroups gs activeId).
      { unfold visibleGroups. apply elem_of_app.
        destruct (decide (id g = activeId)) as [Hid|Hid].
        - right. rewrite (find_group_NoDup activeId gs g Hnd Hg Hid), Hv. set_solver.
        - left. by apply list_elem_of_filter. }
      unfold pointStyles. generalize (∅ : gmap Z PointStyle).
      induction (visibleGroups gs activeId) as [|g0 vs IH] using rev_ind;
        intros styles; [by apply elem_of_nil in Hvis|].
      rewrite foldl_snoc, set_group_styles_lookup.
      destruct (decide (Z.of_nat index ∈ indices g0)).
      - eexists. split; [done|]. done.
      - apply IH. apply elem_of_app in Hvis as [|Hvis]; [done|].
        apply list_elem_of_singleton in Hvis as ->. done. }
    destruct Hsome as (s & Hs & Hr).
    unfold dot, draw_landmark. rewrite Hs. simpl. by rewrite Hr.
Qed.

Lemma draw_landmark_visibility_witness :
  let g1 := mkGroup "1" "Default" {[7%Z]} true "#bb86fc" in
  let g2 := mkGroup "2" "Lips" {[3%Z; 4%Z]} false "#03dac6" in
  let dot := draw_landmark (mkImage 100 100) 2 (pointStyles [g1; g2] "1" 2) White 3
               (mkPoint 0 0 0) in
  dot_radius dot = (2 / 2)%R
  ∧ dot_lineWidth dot = (1 / 2 * 0.5)%R
  ∧ dot_fill dot = "rgba(255, 255, 255, 0.5)"%string.
Proof.
  intros g1 g2.
  apply (proj1 (draw_landmark_visibility (mkImage 100 100) [g1; g2] "1" 2 White 3
                  (mkPoint 0 0 0))).
  intros g [->|[->|Hg]%elem_of_cons]%elem_of_cons Hin.
  - simpl in Hin. set_solver.
  - reflexivity.
  - by apply elem_of_nil in Hg.
Defined.

(** ** App: group management *)

Lemma fmap_keeps_ids (f : SelectionGroup → SelectionGroup) (gs : list SelectionGroup) :
  (∀ g, id (f g) = id g) → id <$> (f <$> gs) = id <$> gs.
Proof.
  intros Hf. rewrite <- list_fmap_compose. apply list_fmap_ext. intros ? g _. apply Hf.
Qed.

Lemma well_formed_same_ids (st st' : AppState) :
  id <$> groups st' = id <$> groups st → activeGroupId st' = activeGroupId st →
  well_formed st → well_formed st'.
Proof. unfold well_formed. by intros -> ->. Qed.

Lemma on_active_ids (f : SelectionGroup → gset Z) (st : AppState) :
  id <$> groups (on_active f st) = id <$> groups st.
Proof. unfold on_active; simpl. apply fmap_keeps_ids. intros g. by case_decide. Qed.

Lemma NoDup_ids_filter (P : SelectionGroup → Prop) `{∀ g, Decision (P g)}
    (gs : list SelectionGroup) :
  NoDup (id <$> gs) → NoDup (id <$> filter P gs).
Proof.
  induction gs as [|g gs IH]; csimpl; [done|].
  intros [Hg Hnd]%NoDup_cons. rewrite filter_cons.
  destruct (decide (P g)); csimpl; [|by apply IH].
  apply NoDup_cons. split; [|by apply IH].
  intros (g' & Hid & Hg')%list_elem_of_fmap.
  apply list_elem_of_filter in Hg' as [_ Hg'].
  apply Hg. rewrite Hid. by apply list_elem_of_fmap_2.
Qed.

Lemma handleDeleteGroup_spec (gid : string) (st : AppState) :
  well_formed st →
  let st' := (handleDeleteGroup gid st).1 in
  (handleDeleteGroup gid st).2 = false
  ∧ well_formed st'
  ∧ (length (groups st) ≤ 1 → st' = st)
  ∧ (1 < length (groups st) →
       groups st' = filter (λ g, id g ≠ gid) (groups st)
       ∧ (activeGroupId st ≠ gid → activeGroupId st' = activeGroupId st)
       ∧ (activeGroupId st = gid → ∃ g, head (groups st') = Some g
                                        ∧ activeGroupId st' = id g)).
Proof.
  intros [Hnd Hact] st'. unfold st', handleDeleteGroup.
  case_bool_decide as Hlen; simpl.
  { split; [done|]. split; [done|]. split; [done|]. lia. }
  assert (Hne : filter (λ g, id g ≠ gid) (groups st) ≠ []).
  { destruct (groups st) as [|g1 [|g2 gs]] eqn:Hgs; simpl in Hlen; try lia.
    csimpl in Hnd. apply NoDup_cons in Hnd as [Hg1 _].
    destruct (decide (id g1 = gid)) as [H1|H1].
    - assert (id g2 ≠ gid) by (intros H2; apply Hg1; rewrite H1, <- H2; set_solver).
      rewrite filter_cons_False by (intros Hn; by apply Hn).
      by rewrite filter_cons_True.
    - by rewrite filter_cons_True. }
  pose proof (NoDup_ids_filter (λ g, id g ≠ gid) (groups st) Hnd) as Hnd'.
  destruct (decide (activeGroupId st = gid)) as [Heq|Hneq].
  - destruct (filter (λ g, id g ≠ gid) (groups st)) as [|g gs'] eqn:Hf; [done|].
    simpl. split; [done|]. split.
    { split; [done|]. simpl. set_solver. }
    split; [lia|]. intros _. split; [done|]. split; [done|].
    intros _. by exists g.
  - simpl. split; [done|]. split.
    { split; [done|]. simpl.
      apply list_elem_of_fmap in Hact as (g & Hid & Hg).
      apply list_elem_of_fmap. exists g. split; [done|].
      apply list_elem_of_filter. split; [congruence|done]. }
    split; [lia|]. intros _. split; [done|]. split; [done|]. done.
Qed.

(** X18.  Deleting a group from a list with pairwise distinct ids and a listed
    active id: the last remaining group is never deleted; otherwise exactly
    the group with the given id goes, the others keep their order, the read
    of [newGroups[0]] never fails, and the active id is again the id of a
    listed group (the first one, when the active group was deleted). *)
Theorem handleDeleteGroup_well_formed (gid : string) (st : AppState) :
  well_formed st →
  let st' := (handleDeleteGroup gid st).1 in
  (handleDeleteGroup gid st).2 = false
  ∧ well_formed st'
  ∧ (length (groups st) ≤ 1 → st' = st)
  ∧ (1 < length (groups st) →
       groups st' = filter (λ g, id g ≠ gid) (groups st)
       ∧ (activeGroupId st ≠ gid → activeGroupId st' = activeGroupId st)
       ∧ (activeGroupId st = gid → ∃ g, head (groups st') = Some g
                                        ∧ activeGroupId st' = id g)).
Proof. apply handleDeleteGroup_spec. Qed.

Lemma handleDeleteGroup_well_formed_witness :
  let g1 := mkGroup "1" "Default" ∅ true "#bb86fc" in
  let g2 := mkGroup "2" "Lips" {[3%Z]} true "#03dac6" in
  let st := mkApp [g1; g2] "1" in
  let st' := (handleDeleteGroup "1" st).1 in
  (handleDeleteGroup "1" st).2 = false
  ∧ well_formed st'
  ∧ (length (groups st) ≤ 1 → st' = st)
  ∧ (1 < length (groups st) →
       groups st' = filter (λ g, id g ≠ "1"%string) (groups st)
       ∧ (activeGroupId st ≠ "1"%string → activeGroupId st' = activeGroupId st)
       ∧ (activeGroupId st = "1"%string → ∃ g, head (groups st') = Some g
                                               ∧ activeGroupId st' = id g)).
Proof.
  intros g1 g2 st.
  apply (handleDeleteGroup_well_formed "1" st).
  split; simpl.
  - apply NoDup_cons. split; [set_solver|]. apply NoDup_singleton.
  - set_solver.
Defined.

(** Toggling the visibility of a group twice gives the state back. *)
Theorem handleToggleGroupVisibility_twice (gid : string) (st : AppState) :
  handleToggleGroupVisibility gid (handleToggleGroupVisibility gid st) = st.
Proof.
  destruct st as [gs a]. unfold handleToggleGroupVisibility; simpl. f_equal.
  rewrite <- list_fmap_compose. rewrite <- (list_fmap_id gs) at 2.
  apply list_fmap_ext. intros k g _. simpl.
  destruct (decide (id g = gid)) as [Hid|Hid]; simpl.
  - rewrite decide_True by done. destruct g as [? ? ? [|] ?]; done.
  - by rewrite decide_False.
Qed.

(** ** App: actions on the active group *)

Lemma on_active_lookup (f : SelectionGroup → gset Z) (st : AppState) (k : nat) :
  groups (on_active f st) !! k
  = (λ g, if decide (id g ≠ activeGroupId st) then g else set_indices g (f g))
      <$> groups st !! k.
Proof. unfold on_active; simpl. apply list_lookup_fmap. Qed.

Lemma elem_of_allIndices (lms : list Point3D) (z : Z) :
  z ∈ allIndices lms ↔ (0 ≤ z < Z.of_nat (length lms))%Z.
Proof.
  unfold allIndices. rewrite list_elem_of_fmap. split.
  - intros (i & -> & Hi%elem_of_seq). lia.
  - intros Hz. exists (Z.to_nat z). split; [lia|]. apply elem_of_seq. lia.
Qed.

Lemma elem_of_inverse_indices (lms : list Point3D) (g : SelectionGroup) (z : Z) :
  z ∈ inverse_indices lms g ↔ (0 ≤ z < Z.of_nat (length lms))%Z ∧ z ∉ indices g.
Proof.
  unfold inverse_indices.
  rewrite elem_of_list_to_set, list_elem_of_filter, elem_of_allIndices. tauto.
Qed.

(** X19.  Inverse selection replaces the indices of the active group by their
    complement within the positions of the point set, leaves the other
    groups alone, and does nothing while no landmarks are loaded. *)
Theorem handleInverseSelection_complement (lms : list Point3D) (st : AppState)
    (k : nat) (g : SelectionGroup) :
  groups st !! k = Some g →
  handleInverseSelection None st = st
  ∧ ∃ g', groups (handleInverseSelection (Some lms) st) !! k = Some g'
          ∧ (id g ≠ activeGroupId st → g' = g)
          ∧ (id g = activeGroupId st →
               ∀ z, z ∈ indices g'
                    ↔ (0 ≤ z < Z.of_nat (length lms))%Z ∧ z ∉ indices g).
Proof.
  intros Hk. split; [done|]. unfold handleInverseSelection.
  rewrite on_active_lookup, Hk. simpl. eexists. split; [done|].
  destruct (decide (id g ≠ activeGroupId st)) as [Hne|Heq].
  - split; [done|]. intros Hid. done.
  - split; [done|]. intros _ z. simpl. apply elem_of_inverse_indices.
Qed.

Lemma handleInverseSelection_complement_witness :
  let g := mkGroup "1" "Default" {[0%Z]} true "#bb86fc" in
  let st := mkApp [g] "1" in
  let lms := [mkPoint 0 0 0; mkPoint 1 0 0] in
  handleInverseSelection None st = st
  ∧ ∃ g', groups (handleInverseSelection (Some lms) st) !! 0 = Some g'
          ∧ (id g ≠ activeGroupId st → g' = g)
          ∧ (id g = activeGroupId st →
               ∀ z, z ∈ indices g'
                    ↔ (0 ≤ z < Z.of_nat (length lms))%Z ∧ z ∉ indices g).
Proof.
  intros g st lms.
  apply (handleInverseSelection_complement lms st 0 g). reflexivity.
Defined.

(** X20.  Inverting the selection twice keeps exactly the indices of the active
    group that are positions of the point set: it gives the selection back
    if and only if every selected index is such a position. *)
Theorem handleInverseSelection_twice (lms : list Point3D) (st : AppState)
    (k : nat) (g : SelectionGroup) :
  groups st !! k = Some g → id g = activeGroupId st →
  ∃ g2, groups (handleInverseSelection (Some lms)
                  (handleInverseSelection (Some lms) st)) !! k = Some g2
        ∧ (∀ z, z ∈ indices g2
                ↔ z ∈ indices g ∧ (0 ≤ z < Z.of_nat (length lms))%Z)
        ∧ (indices g2 = indices g
           ↔ ∀ z, z ∈ indices g → (0 ≤ z < Z.of_nat (length lms))%Z).
Proof.
  intros Hk Hid. unfold handleInverseSelection.
  rewrite on_active_lookup, on_active_lookup, Hk. simpl.
  rewrite (decide_False (P := id g ≠ activeGroupId st)) by (intros H; by apply H).
  simpl. rewrite decide_False by (intros H; by apply H).
  eexists. split; [done|]. simpl.
  assert (Hchar : ∀ z, z ∈ inverse_indices lms
                          (set_indices g (inverse_indices lms g))
                       ↔ z ∈ indices g ∧ (0 ≤ z < Z.of_nat (length lms))%Z).
  { intros z. rewrite elem_of_inverse_indices. simpl.
    rewrite elem_of_inverse_indices.
    destruct (decide (z ∈ indices g)); naive_solver. }
  split; [exact Hchar|]. split.
  - intros Heq z Hz. rewrite <- Heq in Hz. by apply Hchar in Hz as [_ ?].
  - intros Hvalid. apply set_eq. intros z. rewrite Hchar. naive_solver.
Qed.

Lemma handleInverseSelection_twice_witness :
  let g := mkGroup "1" "Default" {[0%Z; 7%Z]} true "#bb86fc" in
  let st := mkApp [g] "1" in
  let lms := [mkPoint 0 0 0; mkPoint 1 0 0] in
  ∃ g2, groups (handleInverseSelection (Some lms)
                  (handleInverseSelection (Some lms) st)) !! 0 = Some g2
        ∧ (∀ z, z ∈ indices g2
                ↔ z ∈ indices g ∧ (0 ≤ z < Z.of_nat (length lms))%Z)
        ∧ (indices g2 = indices g
           ↔ ∀ z, z ∈ indices g → (0 ≤ z < Z.of_nat (length lms))%Z).
Proof.
  intros g st lms.
  apply (handleInverseSelection_twice lms st 0 g); reflexivity.
Defined.

Lemma elem_of_specular_indices (m : gmap nat Z) (g : SelectionGroup) (z : Z) :
  z ∈ specular_indices m g
  ↔ z ∈ indices g ∨ ∃ i, i ∈ indices g ∧ sym_lookup m i = Some z.
Proof.
  unfold specular_indices.
  apply (set_fold_ind_L
    (λ (next : gset Z) (X : gset Z),
       z ∈ next ↔ z ∈ indices g ∨ ∃ i, i ∈ X ∧ sym_lookup m i = Some z)).
  - set_solver.
  - intros x X next Hx IH.
    destruct (sym_lookup m x) as [j|] eqn:Hj.
    + rewrite elem_of_union, elem_of_singleton, IH. split.
      * intros [->|[Hz|(i & Hi & Hm)]]; [right; exists x|by left|right; exists i];
          (split; [set_solver|done]).
      * intros [Hz|(i & [->%elem_of_singleton|Hi]%elem_of_union & Hm)].
        -- right; by left.
        -- left. congruence.
        -- right; right. by exists i.
    + rewrite IH. split.
      * intros [Hz|(i & Hi & Hm)]; [by left|right; exists i].
        split; [set_solver|done].
      * intros [Hz|(i & [->%elem_of_singleton|Hi]%elem_of_union & Hm)];
          [by left|congruence|right; by exists i].
Qed.

(** X21.  Copy-specular adds to the active group the symmetry partner of each of
    its indices that has one and removes nothing; the other groups are left
    alone. *)
Theorem handleCopySpecular_adds_partners (m : gmap nat Z) (st : AppState)
    (k : nat) (g : SelectionGroup) :
  groups st !! k = Some g →
  ∃ g', groups (handleCopySpecular m st) !! k = Some g'
        ∧ (id g ≠ activeGroupId st → g' = g)
        ∧ (id g = activeGroupId st →
             indices g ⊆ indices g'
             ∧ ∀ z, z ∈ indices g'
                    ↔ z ∈ indices g
                      ∨ ∃ i, i ∈ indices g ∧ (0 ≤ i)%Z ∧ m !! Z.to_nat i = Some z).
Proof.
  intros Hk. unfold handleCopySpecular. rewrite on_active_lookup, Hk. simpl.
  eexists. split; [done|].
  destruct (decide (id g ≠ activeGroupId st)) as [Hne|Heq]; [done|].
  split; [done|]. intros _. simpl.
  assert (Hchar : ∀ z, z ∈ specular_indices m g
                       ↔ z ∈ indices g
                         ∨ ∃ i, i ∈ indices g ∧ (0 ≤ i)%Z ∧ m !! Z.to_nat i = Some z).
  { intros z. rewrite elem_of_specular_indices. unfold sym_lookup. split.
    - intros [Hz|(i & Hi & Hm)]; [by left|right]. exists i.
      destruct (decide (0 ≤ i)%Z); done.
    - intros [Hz|(i & Hi & Hpos & Hm)]; [by left|right]. exists i.
      by rewrite decide_True. }
  split; [|exact Hchar]. intros z Hz. apply Hchar. by left.
Qed.

Lemma handleCopySpecular_adds_partners_witness :
  let g := mkGroup "1" "Default" {[0%Z]} true "#bb86fc" in
  let st := mkApp [g] "1" in
  let m : gmap nat Z := {[0 := 1%Z]} in
  ∃ g', groups (handleCopySpecular m st) !! 0 = Some g'
        ∧ (id g ≠ activeGroupId st → g' = g)
        ∧ (id g = activeGroupId st →
             indices g ⊆ indices g'
             ∧ ∀ z, z ∈ indices g'
                    ↔ z ∈ indices g
                      ∨ ∃ i, i ∈ indices g ∧ (0 ≤ i)%Z ∧ m !! Z.to_nat i = Some z).
Proof.
  intros g st m.
  apply (handleCopySpecular_adds_partners m st 0 g). reflexivity.
Defined.

Lemma set_indices_same (g : SelectionGroup) : set_indices g (indices g) = g.
Proof. by destruct g. Qed.

(** X22.  Without the midline landmarks the symmetry map is empty and
    copy-specular is a no-op: it returns the state unchanged. *)
Theorem handleCopySpecular_without_midline (lms : list Float64.Point3D)
    (m : gmap nat Z) (st : AppState) :
  lms !! 10 = None ∨ lms !! 152 = None ∨ lms !! 168 = None →
  Float64.calculateSymmetryMap lms = Some m →
  handleCopySpecular m st = st.
Proof.
  intros Hmiss Hm.
  assert (m = ∅) as ->.
  { unfold Float64.calculateSymmetryMap in Hm.
    destruct (lms !! 10), (lms !! 152), (lms !! 168);
      try (by injection Hm as <-).
    destruct Hmiss as [?|[?|?]]; done. }
  destruct st as [gs a]. unfold handleCopySpecular, on_active; simpl. f_equal.
  rewrite <- (list_fmap_id gs) at 2. apply list_fmap_ext. intros k g _. simpl.
  case_decide; [done|].
  assert (specular_indices ∅ g = indices g) as ->; [|apply set_indices_same].
  apply set_eq. intros z. rewrite elem_of_specular_indices.
  split; [|by left]. intros [Hz|(i & _ & Hi)]; [done|].
  unfold sym_lookup in Hi. case_decide; [|done]. by rewrite lookup_empty in Hi.
Qed.

Lemma handleCopySpecular_without_midline_witness :
  let st := mkApp [mkGroup "1" "Default" {[0%Z]} true "#bb86fc"] "1" in
  handleCopySpecular ∅ st = st.
Proof.
  intros st.
  apply (handleCopySpecular_without_midline (replicate 160 Meshes.origin) ∅ st).
  - right; right. reflexivity.
  - reflexivity.
Defined.

(** The values of a computed symmetry map are positions of the point set or
    the initial [-1]. *)
Lemma calculateSymmetryMap_values (lms : list Float64.Point3D) (m : gmap nat Z)
    (i : nat) (z : Z) :
  Float64.calculateSymmetryMap lms = Some m → m !! i = Some z →
  (-1 ≤ z < Z.of_nat (length lms))%Z.
Proof.
  intros Hm Hi. unfold Float64.calculateSymmetryMap in Hm.
  destruct (lms !! 10) as [p10|] eqn:H10, (lms !! 152) as [p152|] eqn:H152,
    (lms !! 168) as [p168|] eqn:H168;
    try (injection Hm as <-; by rewrite lookup_empty in Hi).
  destruct (lms !! 1) as [p1|] eqn:H1; [|done]. injection Hm as <-.
  destruct (decide (i < length lms)) as [Hlt|Hge].
  - apply lookup_lt_is_Some in Hlt as [p Hp].
    rewrite (fill_map_lookup lms _ _ lms 0 ∅ i p Hp) in Hi.
    injection Hi as <-. apply nearest_range.
  - rewrite fill_map_lookup_ge in Hi by (simpl; lia).
    by rewrite lookup_empty in Hi.
Qed.

Lemma valid_indices_on_active (n : nat) (f : SelectionGroup → gset Z) (st : AppState) :
  valid_indices n st →
  (∀ g z, g ∈ groups st → z ∈ f g → (0 ≤ z < Z.of_nat n)%Z) →
  valid_indices n (on_active f st).
Proof.
  intros Hv Hf g' z Hg' Hz. unfold on_active in Hg'; simpl in Hg'.
  apply list_elem_of_fmap in Hg' as (g & -> & Hg).
  destruct (decide (id g ≠ activeGroupId st)); [by eapply Hv|].
  simpl in Hz. by eapply Hf.
Qed.

(** X23.  Selected indices stay positions of the point set.  If every index of
    every group is below the number [N] of loaded landmarks, this remains so
    after a brush sample in either mode, after clear and after inverse
    selection.  After copy-specular with the symmetry map computed from those
    landmarks it remains so exactly when the map holds no [-1] at an index
    of the active group: a [-1] of the map is added to the selection like
    any other value. *)
Theorem selection_actions_keep_valid_indices (results : list Float64.Point3D)
    (m : gmap nat Z) (st : AppState) (imgElement : option Image) (brushSize : R)
    (mode : Mode) (v : ViewState) (screenX screenY : R) :
  let lms := Float64.real_point <$> results in
  valid_indices (length lms) st →
  Float64.calculateSymmetryMap results = Some m →
  valid_indices (length lms)
    (brush (Some lms) imgElement brushSize mode v screenX screenY st)
  ∧ valid_indices (length lms) (handleClear st)
  ∧ valid_indices (length lms) (handleInverseSelection (Some lms) st)
  ∧ (valid_indices (length lms) (handleCopySpecular m st)
     ↔ ∀ g i, g ∈ groups st → id g = activeGroupId st → i ∈ indices g →
              m !! Z.to_nat i ≠ Some (-1)%Z).
Proof.
  intros lms Hv Hm. split; [|split; [|split]].
  - unfold brush, performSelection.
    destruct imgElement as [img|]; [|done].
    case_bool_decide; [|done].
    intros g' z Hg' Hz. simpl in Hg'. unfold handleSelectionChange in Hg'.
    apply list_elem_of_fmap in Hg' as (g & -> & Hg).
    destruct (decide (id g ≠ activeGroupId st)); [by eapply Hv|].
    rewrite update_group_indices in Hz.
    destruct mode.
    + rewrite foldl_apply_index_add in Hz.
      apply elem_of_union in Hz as [Hz|Hz%elem_of_list_to_set]; [by eapply Hv|].
      unfold indicesToUpdate in Hz. apply brush_scan_bounds in Hz. simpl in Hz. lia.
    + rewrite foldl_apply_index_subtract in Hz.
      apply elem_of_difference in Hz as [Hz _]. by eapply Hv.
  - apply valid_indices_on_active; [done|]. set_solver.
  - apply valid_indices_on_active; [done|].
    intros g z _ Hz. by apply elem_of_inverse_indices in Hz as [? _].
  - assert (Hlen : length lms = length results) by apply length_fmap.
    split.
    + intros Hafter g i Hg Hid Hi Hmi.
      assert (Hpos : (0 ≤ i)%Z) by (by apply (Hv g i)).
      assert (Hin : set_indices g (specular_indices m g)
                    ∈ groups (handleCopySpecular m st)).
      { unfold handleCopySpecular, on_active; simpl.
        apply list_elem_of_fmap. exists g. split; [|done].
        rewrite decide_False; [done|]. intros Hne. by apply Hne. }
      assert (Hneg : (-1)%Z ∈ indices (set_indices g (specular_indices m g))).
      { simpl. apply elem_of_specular_indices. right. exists i. split; [done|].
        unfold sym_lookup. by rewrite decide_True. }
      pose proof (Hafter _ _ Hin Hneg). lia.
    + intros Hnone g' z Hg' Hz.
      unfold handleCopySpecular, on_active in Hg'; simpl in Hg'.
      apply list_elem_of_fmap in Hg' as (g & -> & Hg).
      destruct (decide (id g ≠ activeGroupId st)) as [Hne|Heq]; [by eapply Hv|].
      assert (Hid : id g = activeGroupId st).
      { destruct (decide (id g = activeGroupId st)); [done|]. by destruct Heq. }
      simpl in Hz. apply elem_of_specular_indices in Hz as [Hz|(i & Hi & Hs)].
      * by eapply Hv.
      * unfold sym_lookup in Hs. case_decide; [|done].
        pose proof (calculateSymmetryMap_values results m _ z Hm Hs) as Hz.
        assert (z ≠ (-1)%Z).
        { intros ->. by apply (Hnone g i). }
        lia.
Qed.

Lemma selection_actions_keep_valid_indices_witness :
  let lms := Float64.real_point <$> Meshes.mirror_mesh in
  let st := mkApp [mkGroup "1" "Default" {[2%Z; 4%Z]} true "#bb86fc"] "1" in
  ∃ m, Float64.calculateSymmetryMap Meshes.mirror_mesh = Some m
       ∧ valid_indices (length lms)
           (brush (Some lms) (Some (mkImage 1 1)) 10 Add (mkView 1 (mkPoint2D 0 0)) 0 0 st)
       ∧ valid_indices (length lms) (handleClear st)
       ∧ valid_indices (length lms) (handleInverseSelection (Some lms) st)
       ∧ (valid_indices (length lms) (handleCopySpecular m st)
          ↔ ∀ g i, g ∈ groups st → id g = activeGroupId st → i ∈ indices g →
                   m !! Z.to_nat i ≠ Some (-1)%Z).
Proof.
  intros lms st. eexists. split; [reflexivity|].
  apply (selection_actions_keep_valid_indices Meshes.mirror_mesh _ st
           (Some (mkImage 1 1)) 10 Add (mkView 1 (mkPoint2D 0 0)) 0 0).
  - intros g z ->%list_elem_of_singleton Hz. simpl in Hz.
    apply elem_of_union in Hz as [->%elem_of_singleton| ->%elem_of_singleton];
      vm_compute; split; congruence.
  - reflexivity.
Defined.

(** ** App: the group list stays well formed *)

Lemma handleSelectionChange_ids (activeId : string) (idxs : list Z) (mode : Mode)
    (gs : list SelectionGroup) :
  id <$> handleSelectionChange activeId idxs mode gs = id <$> gs.
Proof.
  unfold handleSelectionChange. apply fmap_keeps_ids. intros g.
  case_decide; [done|]. apply update_group_fields.
Qed.

Lemma array_positions_bounds (entries : jsobj json) : ∀ idx i,
  i ∈ array_positions idx entries → idx ≤ i < idx + length entries.
Proof.
  induction entries as [|e entries IH]; intros idx i; simpl; [by intros ?%elem_of_nil|].
  destruct (e.2); try (intros Hi%IH; lia).
  intros [->|Hi%IH]%elem_of_cons; lia.
Qed.

Lemma array_positions_NoDup (entries : jsobj json) : ∀ idx,
  NoDup (array_positions idx entries).
Proof.
  induction entries as [|e entries IH]; intros idx; simpl; [constructor|].
  destruct (e.2); try apply IH.
  apply NoDup_cons. split; [|apply IH]. intros Hi%array_positions_bounds. lia.
Qed.

Lemma import_entries_ids (genId : nat → string) (rnd : nat → nat)
    (entries : jsobj json) : ∀ idx acc,
  id <$> newGroups (import_entries genId rnd idx entries acc)
  = (id <$> newGroups acc) ++ (genId <$> array_positions idx entries).
Proof.
  induction entries as [|e entries IH]; intros idx acc; simpl.
  - by rewrite app_nil_r.
  - rewrite IH. unfold import_entry. destruct (e.2); simpl; try done.
    rewrite fmap_app, <- app_assoc. done.
Qed.

Lemma handleImportJSON_well_formed (genId : nat → string) (rnd : nat → nat)
    (j : json) (s : Session) :
  admissible (ImportJSON genId rnd j) s → well_formed (app s) →
  well_formed (handleImportJSON genId rnd j (app s)).1.
Proof.
  intros Hadm Hwf. destruct j as [| | | |elems|members]; simpl; try done.
  - apply (well_formed_same_ids (app s)); [|done|done]. simpl.
    apply fmap_keeps_ids. intros g. by case_decide.
  - destruct Hadm as [Hinj Hfirst].
    set (init := {| newGroups := []; firstId := ""; draws := 0 |}).
    pose proof (import_entries_ids genId rnd members 0 init) as Hids.
    simpl in Hids.
    case_bool_decide as Hlen; cbn [fst]; [|done].
    destruct Hfirst as [Hnone|(k & elems & rest & ->)].
    { pose proof (handleImportJSON_object genId rnd members (app s)) as H.
      cbv zeta in H. rewrite Hnone in H. unfold handleImportJSON in H.
      fold init in H. rewrite bool_decide_eq_true_2 in H by done. done. }
    split; cbn [groups activeGroupId].
    + rewrite Hids. apply NoDup_fmap_2_strong; [|apply array_positions_NoDup].
      intros i i' Hi%array_positions_bounds Hi'%array_positions_bounds.
      apply Hinj; lia.
    + rewrite Hids. unfold init. rewrite import_entries_firstId.
      apply list_elem_of_fmap_2. simpl. set_solver.
Qed.

Lemma perform_well_formed (a : Action) (s : Session) :
  admissible a s → well_formed (app s) → well_formed (app (perform a s)).
Proof.
  intros Hadm Hwf.
  destruct a as [newId r|gid|gid newName|gid|gid c|gid| | | |img bs mode v x y
                |genId rnd j|fl]; simpl.
  - destruct Hwf as [Hnd Hact]. split; simpl; rewrite fmap_app; simpl.
    + apply NoDup_app. split; [done|]. split; [|apply NoDup_singleton].
      intros x Hx ->%list_elem_of_singleton. done.
    + set_solver.
  - by apply handleDeleteGroup_spec.
  - apply (well_formed_same_ids (app s)); [|done|done]. simpl.
    apply fmap_keeps_ids. intros g. by case_decide.
  - apply (well_formed_same_ids (app s)); [|done|done]. simpl.
    apply fmap_keeps_ids. intros g. by case_decide.
  - apply (well_formed_same_ids (app s)); [|done|done]. simpl.
    apply fmap_keeps_ids. intros g. by case_decide.
  - destruct Hwf as [Hnd _]. by split.
  - apply (well_formed_same_ids (app s)); [apply on_active_ids|done|done].
  - apply (well_formed_same_ids (app s)); [apply on_active_ids|done|done].
  - unfold handleInverseSelection. destruct (landmarks s); [|done].
    apply (well_formed_same_ids (app s)); [apply on_active_ids|done|done].
  - unfold brush. destruct (performSelection _ _ _ _ _ _ _) as [[idxs m]|]; [|done].
    apply (well_formed_same_ids (app s)); [|done|done]. simpl. apply handleSelectionChange_ids.
  - by apply handleImportJSON_well_formed.
  - unfold handleImageLoaded.
    destruct (detectFace fl) as [[results|]|]; simpl; [|done|done].
    split; simpl; [apply NoDup_singleton|set_solver].
Qed.

(** X24.  Exactly one listed group is active at any time.  From the initial
    session, any sequence of actions (group management, selection actions,
    brush samples, imports, image loads) leaves a group list with pairwise
    distinct ids, at least one group, and an active id that is the id of a
    listed group, provided [generateId] returns fresh ids and an imported
    object that has an array under some key has one under its first key. *)
Theorem session_always_well_formed (acts : list Action) :
  all_admissible initialSession acts →
  let s := foldl (λ s a, perform a s) initialSession acts in
  well_formed (app s) ∧ groups (app s) ≠ [].
Proof.
  intros Hadm.
  assert (H : ∀ s0, well_formed (app s0) → all_admissible s0 acts →
            well_formed (app (foldl (λ s a, perform a s) s0 acts))).
  { clear Hadm. induction acts as [|a acts IH]; intros s0 Hwf Hadm; simpl; [done|].
    destruct Hadm as [Ha Hrest]. apply IH; [|done]. by apply perform_well_formed. }
  assert (Hwf : well_formed (app (foldl (λ s a, perform a s) initialSession acts))).
  { apply H; [|done]. split; simpl; [apply NoDup_singleton|set_solver]. }
  split; [exact Hwf|].
  destruct Hwf as [_ Hact]. intros Hnil. rewrite Hnil in Hact.
  by apply elem_of_nil in Hact.
Qed.

Lemma session_always_well_formed_witness :
  let acts := [AddGroup "g2" 3; BrushSample None 10 Add (mkView 1 (mkPoint2D 0 0)) 0 0;
               DeleteGroup "1"; ImageLoaded None] in
  let s := foldl (λ s a, perform a s) initialSession acts in
  well_formed (app s) ∧ groups (app s) ≠ [].
Proof.
  intros acts.
  apply (session_always_well_formed acts).
  simpl. repeat split. set_solver.
Defined.

(** ** Import and export, continued *)

(** X25.  An import that shows an alert leaves the groups and the active id as
    they were, whatever the parsed value is. *)
Theorem handleImportJSON_alert_keeps_state (genId : nat → string) (rnd : nat → nat)
    (j : json) (st : AppState) (msg : string) :
  (handleImportJSON genId rnd j st).2 = Some msg →
  (handleImportJSON genId rnd j st).1 = st.
Proof.
  destruct j as [| | | |elems|members]; simpl; try done.
  by case_bool_decide.
Qed.

Lemma handleImportJSON_alert_keeps_state_witness :
  let st := mkApp [mkGroup "1" "Default" {[0%Z]} true "#bb86fc"] "1" in
  (handleImportJSON (λ n, pretty n) (λ n, n)
     (JObj [("a"%string, JNum 1); ("b"%string, JStr "x")]) st).1 = st.
Proof.
  intros st.
  apply (handleImportJSON_alert_keeps_state (λ n, pretty n) (λ n, n)
           (JObj [("a"%string, JNum 1); ("b"%string, JStr "x")]) st
           "No valid groups found in JSON."). 
  reflexivity.
Defined.

(** What the object branch of [handleImportJSON] installs when some key
    holds an array. *)
Lemma handleImportJSON_object_result (genId : nat → string) (rnd : nat → nat)
    (members : jsobj json) (st : AppState) :
  omap array_member members ≠ [] →
  ∃ gs', handleImportJSON genId rnd (JObj members) st
         = ({| groups := gs'; activeGroupId := genId 0 |}, None)
         ∧ (λ g, (name g, indices g)) <$> gs'
           = (λ kl, (kl.1, list_to_set kl.2)) <$> omap array_member members
         ∧ id <$> gs' = genId <$> array_positions 0 members
         ∧ (∀ g, g ∈ gs' → visible g = true ∧ color g ∈ palette).
Proof.
  intros Hkept.
  set (init := {| newGroups := []; firstId := ""; draws := 0 |}).
  pose proof (import_entries_groups genId rnd members 0 init) as Hnames.
  pose proof (import_entries_ids genId rnd members 0 init) as Hids.
  simpl in Hnames, Hids.
  assert (Hlen : 0 < length (newGroups (import_entries genId rnd 0 members init))).
  { apply (f_equal length) in Hnames. rewrite !length_fmap in Hnames.
    rewrite Hnames. destruct (omap array_member members); [done|simpl; lia]. }
  exists (newGroups (import_entries genId rnd 0 members init)).
  split.
  { unfold handleImportJSON. fold init. rewrite bool_decide_eq_true_2 by done.
    destruct members as [|e rest]; [done|].
    unfold init. by rewrite import_entries_firstId. }
  split; [exact Hnames|]. split; [exact Hids|].
  intros g Hg. apply import_entries_origin in Hg as [Hg|Hg].
  - by apply elem_of_nil in Hg.
  - destruct Hg as (d & k & elems & _ & _ & _ & _ & Hv & Hc). done.
Qed.

(** X26.  Importing an object in which some key holds an array installs one group
    per array-valued key, in key order, named after the key, holding the
    elements of the array, visible, with a palette color and the id generated
    in the iteration of that key; the active id becomes the id generated in
    the first iteration. *)
Theorem handleImportJSON_object_groups (genId : nat → string) (rnd : nat → nat)
    (members : jsobj json) (st : AppState) :
  omap array_member members ≠ [] →
  ∃ st', handleImportJSON genId rnd (JObj members) st = (st', None)
         ∧ activeGroupId st' = genId 0
         ∧ (λ g, (name g, indices g)) <$> groups st'
           = (λ kl, (kl.1, list_to_set kl.2)) <$> omap array_member members
         ∧ id <$> groups st' = genId <$> array_positions 0 members
         ∧ (∀ g, g ∈ groups st' → visible g = true ∧ color g ∈ palette).
Proof.
  intros Hkept.
  destruct (handleImportJSON_object_result genId rnd members st Hkept)
    as (gs' & Heq & Hnames & Hids & Hvis).
  eexists. split; [exact Heq|]. done.
Qed.

Lemma handleImportJSON_object_groups_witness :
  let members := [("a"%string, JNum 1); ("b"%string, JArr [1%Z; 2%Z])] in
  let st := mkApp [mkGroup "1" "Default" ∅ true "#bb86fc"] "1" in
  ∃ st', handleImportJSON (λ n, pretty n) (λ n, n) (JObj members) st = (st', None)
         ∧ activeGroupId st' = pretty 0
         ∧ (λ g, (name g, indices g)) <$> groups st'
           = (λ kl, (kl.1, list_to_set kl.2)) <$> omap array_member members
         ∧ id <$> groups st' = (λ n, pretty n) <$> array_positions 0 members
         ∧ (∀ g, g ∈ groups st' → visible g = true ∧ color g ∈ palette).
Proof.
  intros members st.
  apply (handleImportJSON_object_groups (λ n, pretty n) (λ n, n) members st).
  discriminate.
Defined.

(** X27.  Export then import restores the groups when their names are pairwise
    distinct, are not array indices and are not [__proto__]: the imported
    list has the same names and the same index sets in the same order, and
    its first group is active.  Ids and colors are generated anew and every
    group comes back visible. *)
Theorem export_import_restores_groups (genId : nat → string) (rnd : nat → nat)
    (gs : list SelectionGroup) (st : AppState) :
  gs ≠ [] →
  NoDup (name <$> gs) →
  (∀ g, g ∈ gs → array_index (name g) = None ∧ name g ≠ "__proto__"%string) →
  ∃ st', handleImportJSON genId rnd (JSON_parse (handleExport gs)) st = (st', None)
         ∧ (λ g, (name g, indices g)) <$> groups st'
           = (λ g, (name g, indices g)) <$> gs
         ∧ (∃ g0, head (groups st') = Some g0 ∧ activeGroupId st' = id g0)
         ∧ (∀ g, g ∈ groups st' → visible g = true ∧ color g ∈ palette).
Proof.
  intros Hne Hnd Hplain.
  rewrite JSON_parse_handleExport, (exportData_plain gs Hnd Hplain).
  set (members := (λ m : string * list Z, (m.1, JArr m.2)) <$> (name_and_array <$> gs)).
  assert (Hkept : omap array_member members = name_and_array <$> gs)
    by apply omap_array_member_arrays.
  destruct (handleImportJSON_object_result genId rnd members st)
    as (gs' & Heq & Hnames & Hids & Hvis).
  { rewrite Hkept. by destruct gs. }
  eexists. split; [exact Heq|]. simpl. split; [|split; [|exact Hvis]].
  - rewrite Hnames, Hkept, <- list_fmap_compose.
    apply list_fmap_ext. intros k g _. simpl.
    by rewrite list_to_set_sorted_indices.
  - destruct gs as [|g gs0]; [done|].
    assert (Hpos : array_positions 0 members = 0 :: array_positions 1 (tail members))
      by reflexivity.
    rewrite Hpos in Hids. destruct gs' as [|g0 gs'']; [done|].
    exists g0. split; [done|]. by injection Hids as -> _.
Qed.

Lemma export_import_restores_groups_witness :
  let gs := [mkGroup "a" "Lips" {[7%Z; 3%Z]} false "#bb86fc";
             mkGroup "b" "Brow" ∅ true "#03dac6"] in
  let st := mkApp gs "b" in
  ∃ st', handleImportJSON (λ n, pretty n) (λ n, n) (JSON_parse (handleExport gs)) st
         = (st', None)
         ∧ (λ g, (name g, indices g)) <$> groups st'
           = (λ g, (name g, indices g)) <$> gs
         ∧ (∃ g0, head (groups st') = Some g0 ∧ activeGroupId st' = id g0)
         ∧ (∀ g, g ∈ groups st' → visible g = true ∧ color g ∈ palette).
Proof.
  intros gs st.
  apply (export_import_restores_groups (λ n, pretty n) (λ n, n) gs st).
  - discriminate.
  - simpl. apply NoDup_cons. split; [set_solver|]. apply NoDup_singleton.
  - intros g [->|[->|Hg]%elem_of_cons]%elem_of_cons;
      [split; [reflexivity|discriminate]..|by apply elem_of_nil in Hg].
Defined.

Lemma elem_of_replace_value_iff {A} (k0 : string) (v0 : A) (o : jsobj A) (k : string) (v : A) :
  NoDup o.*1 → k0 ∈ o.*1 →
  (k, v) ∈ replace_value k0 v0 o ↔ (k = k0 ∧ v = v0) ∨ (k ≠ k0 ∧ (k, v) ∈ o).
Proof.
  induction o as [|[k' v'] o IH]; csimpl; intros Hnd Hin; [by apply elem_of_nil in Hin|].
  apply NoDup_cons in Hnd as [Hk' Hnd].
  destruct (decide (k0 = k')) as [->|Hne].
  - rewrite !elem_of_cons. split.
    + intros [[= -> ->]|Hm]; [by left|]. right. split; [|by right].
      intros ->. apply Hk'. by apply (list_elem_of_fmap_2 fst) in Hm.
    + intros [[-> ->]|[Hk [[= -> ->]|Hm]]]; [by left|done|by right].
  - apply elem_of_cons in Hin as [Hin|Hin]; [done|].
    rewrite !elem_of_cons, (IH Hnd Hin). split.
    + intros [[= -> ->]|[[-> ->]|[Hk Hm]]];
        [right; split; [done|by left]|by left|right; split; [done|by right]].
    + intros [[-> ->]|[Hk [[= -> ->]|Hm]]];
        [right; by left|by left|right; right; done].
Qed.

Lemma elem_of_insert_index_iff {A} n (k0 : string) (v0 : A) (o : jsobj A) m :
  m ∈ insert_index n k0 v0 o ↔ m = (k0, v0) ∨ m ∈ o.
Proof.
  induction o as [|[k' v'] o IH]; csimpl.
  - rewrite list_elem_of_singleton. set_solver.
  - destruct (array_index k') as [n'|]; [destruct (n' <? n)%N|];
      rewrite !elem_of_cons, ?IH; tauto.
Qed.

Lemma elem_of_obj_define_iff {A} (k0 : string) (v0 : A) (o : jsobj A) (k : string) (v : A) :
  NoDup o.*1 →
  (k, v) ∈ obj_define k0 v0 o ↔ (k = k0 ∧ v = v0) ∨ (k ≠ k0 ∧ (k, v) ∈ o).
Proof.
  intros Hnd. unfold obj_define. destruct (has_key k0 o) eqn:Hhas.
  - apply has_key_true in Hhas. by apply elem_of_replace_value_iff.
  - apply has_key_false in Hhas.
    assert (Hfresh : (k, v) ∈ o → k ≠ k0).
    { intros Hm ->. apply Hhas. by apply (list_elem_of_fmap_2 fst) in Hm. }
    destruct (array_index k0) as [n|].
    + rewrite elem_of_insert_index_iff. split.
      * intros [[= -> ->]|Hm]; [by left|right; auto].
      * intros [[-> ->]|[_ Hm]]; [by left|by right].
    + rewrite elem_of_app, list_elem_of_singleton. split.
      * intros [Hm|[= -> ->]]; [right; auto|by left].
      * intros [[-> ->]|[_ Hm]]; [by right|by left].
Qed.

Lemma exportData_snoc gs g :
  exportData (gs ++ [g])
  = obj_assign (name g) (sorted_indices (indices g)) (exportData gs).
Proof. unfold exportData. by rewrite foldl_snoc. Qed.

Lemma exportData_entries_iff (gs : list SelectionGroup) (k : string) (v : list Z) :
  (k, v) ∈ exportData gs
  ↔ k ≠ "__proto__"%string
    ∧ ∃ g, last (filter (λ g, name g = k) gs) = Some g
           ∧ v = sorted_indices (indices g).
Proof.
  induction gs as [|g0 gs IH] using rev_ind.
  - split; [by intros ?%elem_of_nil|]. by intros (_ & g & Hg & _).
  - rewrite exportData_snoc, filter_app. unfold obj_assign.
    destruct (decide (name g0 = "__proto__"%string)) as [Hp|Hp].
    + rewrite IH. split.
      * intros (Hk & g & Hg & Hv). split; [done|]. exists g.
        rewrite filter_cons_False, filter_nil by congruence. by rewrite app_nil_r.
      * intros (Hk & g & Hg & Hv). split; [done|]. exists g.
        rewrite filter_cons_False, filter_nil in Hg by congruence.
        by rewrite app_nil_r in Hg.
    + rewrite elem_of_obj_define_iff by apply exportData_canonical.
      rewrite IH. split.
      * intros [[-> ->]|(Hne & Hk & g & Hg & Hv)].
        -- split; [done|]. exists g0.
           rewrite filter_cons_True, filter_nil by done. by rewrite last_snoc.
        -- split; [done|]. exists g.
           rewrite filter_cons_False, filter_nil by congruence. by rewrite app_nil_r.
      * intros (Hk & g & Hg & Hv).
        destruct (decide (name g0 = k)) as [Heq|Hne].
        -- left. rewrite filter_cons_True, filter_nil in Hg by done.
           rewrite last_snoc in Hg. injection Hg as <-. done.
        -- right. split; [congruence|]. split; [done|]. exists g.
           rewrite filter_cons_False, filter_nil in Hg by done.
           by rewrite app_nil_r in Hg.
Qed.

(** X28.  What a key of the exported object stands for: every name other than
    [__proto__] is a key exactly once, and its array is the sorted index set
    of the last group in the list that has this name; an earlier group with
    the same name is not exported. *)
Theorem exportData_last_group_of_name (gs : list SelectionGroup) (k : string)
    (v : list Z) :
  NoDup (exportData gs).*1
  ∧ ((k, v) ∈ exportData gs
     ↔ k ≠ "__proto__"%string
       ∧ ∃ g, last (filter (λ g, name g = k) gs) = Some g
              ∧ v = sorted_indices (indices g)).
Proof.
  split; [apply exportData_canonical|apply exportData_entries_iff].
Qed.

Lemma StronglySorted_le_lt (l : list Z) :
  StronglySorted Z.le l → NoDup l → StronglySorted Z.lt l.
Proof.
  induction 1 as [|x l Hss IH Hall]; intros Hnd; [constructor|].
  apply NoDup_cons in Hnd as [Hx Hnd]. constructor; [by apply IH|].
  rewrite Forall_forall in *. intros y Hy. specialize (Hall y Hy).
  assert (x ≠ y) by (intros ->; done). lia.
Qed.

Lemma sorted_indices_ascending (s : gset Z) :
  StronglySorted Z.lt (sorted_indices s) ∧ ∀ z, z ∈ sorted_indices s ↔ z ∈ s.
Proof.
  unfold sorted_indices. split.
  - apply StronglySorted_le_lt.
    + apply StronglySorted_merge_sort; apply _.
    + rewrite merge_sort_Permutation. apply NoDup_elements.
  - intros z. rewrite merge_sort_Permutation. apply elem_of_elements.
Qed.

(** X29.  Every array of the exported object is strictly ascending (hence without
    repetition) and holds exactly the indices of a group of the list that
    bears the key as its name. *)
Theorem exportData_arrays_ascending (gs : list SelectionGroup) (k : string)
    (v : list Z) :
  (k, v) ∈ exportData gs →
  StronglySorted Z.lt v
  ∧ ∃ g, g ∈ gs ∧ name g = k ∧ ∀ z, z ∈ v ↔ z ∈ indices g.
Proof.
  intros (_ & g & Hg & ->)%exportData_entries_iff.
  destruct (sorted_indices_ascending (indices g)) as [Hs Hm].
  split; [exact Hs|]. exists g.
  apply last_Some_elem_of, list_elem_of_filter in Hg as [Hname Hin]. done.
Qed.

Lemma exportData_arrays_ascending_witness :
  let gs := [mkGroup "a" "Lips" {[7%Z; 3%Z]} false "#bb86fc"] in
  StronglySorted Z.lt [3%Z; 7%Z]
  ∧ ∃ g, g ∈ gs ∧ name g = "Lips"%string ∧ ∀ z, z ∈ [3%Z; 7%Z] ↔ z ∈ indices g.
Proof.
  intros gs.
  apply (exportData_arrays_ascending gs "Lips" [3%Z; 7%Z]).
  assert (He : exportData gs = [("Lips"%string, [3%Z; 7%Z])]) by reflexivity.
  rewrite He. set_solver.
Defined.
